(** * xscale: spectral transform (xscale/spectral/fft.py) and harmonic fit
      (xscale/signal/fitting.py)

    A shallow embedding of the two modules.  Python floats are idealised as
    real numbers ([R]); integers, strings, tuples, dictionaries, exceptions,
    warnings and the identity of the caller's list objects are modelled as the
    code has them. *)

From Stdlib Require Import List String Ascii Bool Arith ZArith Lia.
From Stdlib Require Import Reals Lra Permutation Sorted.
Import ListNotations.

Local Open Scope string_scope.
Local Open Scope list_scope.

(* ================================================================== *)
(** ** Python run-time: exceptions, warnings, calls to the array engine *)
(* ================================================================== *)

Module Py.

(** The exceptions the two modules can raise, directly or through the
    libraries they call. *)
Inductive exn : Type :=
| NotImplementedError (msg : string)
| KeyError (key : string)
| IndexError
| TypeError
| ValueError
| ZeroDivisionError.

(** Observable effects of a call, in program order: warnings, and the
    requests issued to the array engine (the FFT primitives and the forced
    evaluation of [.load()]). *)
Inductive effect : Type :=
| Warn (msg : string)
| CallRfft (axis : nat)
| CallFft (axis : nat)
| CallLoad.

(** A computation logs its effects and either raises or returns. *)
Definition M (A : Type) : Type := (list effect * (exn + A))%type.

Definition ret {A} (a : A) : M A := ([], inr a).

Definition raise {A} (e : exn) : M A := ([], inl e).

Definition tell (ev : effect) : M unit := ([ev], inr tt).

Definition bind {A B} (m : M A) (f : A -> M B) : M B :=
  match m with
  | (l, inl e) => (l, inl e)
  | (l, inr a) => let (l', r) := f a in (l ++ l', r)
  end.

Definition log {A} (m : M A) : list effect := fst m.

Definition outcome {A} (m : M A) : exn + A := snd m.

(** [d[k]] on a dictionary: [KeyError] when the key is absent. *)
Definition of_option {A} (key : string) (o : option A) : M A :=
  match o with
  | Some a => ret a
  | None => raise (KeyError key)
  end.

End Py.

Import Py.

Declare Scope py_scope.
Delimit Scope py_scope with py.
Notation "x <- c1 ;; c2" := (bind c1 (fun x => c2))
  (at level 61, c1 at next level, right associativity) : py_scope.
Notation "c1 ;;; c2" := (bind c1 (fun _ => c2))
  (at level 61, right associativity) : py_scope.
Local Open Scope py_scope.

(** The requests to the FFT primitives among the effects of a call. *)
Definition is_transform (ev : effect) : bool :=
  match ev with
  | CallRfft _ | CallFft _ => true
  | _ => false
  end.

Definition transforms (l : list effect) : list effect := filter is_transform l.

Definition warnings (l : list effect) : list string :=
  flat_map (fun ev => match ev with Warn m => [m] | _ => [] end) l.

(* ================================================================== *)
(** ** Dictionaries with string keys *)
(* ================================================================== *)

Definition dict (V : Type) : Type := list (string * V).

Fixpoint dict_get {V} (d : dict V) (k : string) : option V :=
  match d with
  | [] => None
  | (k', v) :: d' => if String.eqb k k' then Some v else dict_get d' k
  end.

(** [d[k] = v]: replaces the value of an existing key, appends a new key. *)
Fixpoint dict_set {V} (d : dict V) (k : string) (v : V) : dict V :=
  match d with
  | [] => [(k, v)]
  | (k', v') :: d' =>
      if String.eqb k k' then (k', v) :: d' else (k', v') :: dict_set d' k v
  end.

Definition mem (s : string) (l : list string) : bool :=
  existsb (String.eqb s) l.

(** Position of the first occurrence ([tuple.index]). *)
Fixpoint index_of (s : string) (l : list string) : nat :=
  match l with
  | [] => 0
  | x :: l' => if String.eqb s x then 0 else S (index_of s l')
  end.

Fixpoint replace_at {A} (k : nat) (v : A) (l : list A) : list A :=
  match l, k with
  | [], _ => []
  | _ :: l', 0 => v :: l'
  | x :: l', S k' => x :: replace_at k' v l'
  end.

(* ================================================================== *)
(** ** Numbers and N-dimensional arrays *)
(* ================================================================== *)

Local Open Scope R_scope.

Record complex : Type := mkC { re : R; im : R }.

Definition Cadd (a b : complex) : complex := mkC (re a + re b) (im a + im b).
Definition Csub (a b : complex) : complex := mkC (re a - re b) (im a - im b).
Definition Cmul (a b : complex) : complex :=
  mkC (re a * re b - im a * im b) (re a * im b + im a * re b).
Definition Cconj (a : complex) : complex := mkC (re a) (- im a).
Definition Cscale (a : complex) (x : R) : complex := mkC (re a * x) (im a * x).
Definition Cdivr (a : complex) (x : R) : complex := mkC (re a / x) (im a / x).
Definition C0 : complex := mkC 0 0.
Definition Creal (x : R) : complex := mkC x 0.

Definition Csum (l : list complex) : complex := fold_left Cadd l C0.

Inductive dtype : Type := float64 | complex128.

(** The data of an array: element type, shape, and the element at a
    multi-index.  Chunking only partitions the work and is not part of the
    value: [chunk] and [rechunk] leave all three unchanged. *)
Record ndarray : Type := mkNd {
  nd_dtype : dtype;
  nd_shape : list nat;
  nd_at : list nat -> complex
}.

(** [np.iscomplexobj] looks at the element type only. *)
Definition iscomplexobj (a : ndarray) : bool :=
  match nd_dtype a with complex128 => true | float64 => false end.

(** A coordinate vector: plain numbers, or [datetime64[ns]] ticks. *)
Inductive coordv : Type :=
| Num (l : list R)
| Datetime64 (ns : list Z).

Definition coord_len (c : coordv) : nat :=
  match c with Num l => List.length l | Datetime64 l => List.length l end.

Record attrs : Type := mkAttrs {
  ps_factor : option R;
  psd_factor : option R;
  description : option string
}.

Definition no_attrs : attrs := mkAttrs None None None.

Record DataArray : Type := mkDA {
  da_name : option string;
  da_dims : list string;
  da_data : ndarray;
  da_coords : dict coordv;
  da_attrs : attrs
}.

Definition da_shape (a : DataArray) : list nat := nd_shape (da_data a).

Definition get_axis_num (a : DataArray) (di : string) : nat :=
  index_of di (da_dims a).

Definition arange (n : nat) : list R := map INR (seq 0 n).

(** [array[di]] for a dimension name: its coordinate, or the default index
    [0 .. n-1] of a dimension without one. *)
Definition da_coord (a : DataArray) (di : string) : coordv :=
  match dict_get (da_coords a) di with
  | Some c => c
  | None => Num (arange (nth (get_axis_num a di) (da_shape a) 0%nat))
  end.

(* ------------------------------------------------------------------ *)
(** *** numpy / dask primitives *)
(* ------------------------------------------------------------------ *)

(** The primitives are given by their mathematical definition over the
    reals; rounding, NaN, and the errors that the libraries raise on an
    empty axis or on a zero resolution are outside the model. *)

(** The factor [exp(-2 pi i j k / n)] of the discrete Fourier transform. *)
Definition twiddle (n j k : nat) : complex :=
  let th := 2 * PI * INR (j * k) / INR n in
  mkC (cos th) (- sin th).

Definition dft_along (a : ndarray) (axis nout : nat)
    (elt : complex -> complex) : ndarray :=
  let n := nth axis (nd_shape a) 0%nat in
  mkNd complex128 (replace_at axis nout (nd_shape a))
    (fun idx =>
       Csum (map (fun j => Cmul (elt (nd_at a (replace_at axis j idx)))
                                (twiddle n j (nth axis idx 0%nat)))
                 (seq 0 n))).

(** [da.fft.rfft(x, axis=axis)]: the [n//2+1] non-redundant bins of the
    transform of the real part. *)
Definition da_rfft (a : ndarray) (axis : nat) : ndarray :=
  dft_along a axis (nth axis (nd_shape a) 0 / 2 + 1)%nat
            (fun z => Creal (re z)).

(** [da.fft.fft(x, axis=axis)]. *)
Definition da_fft (a : ndarray) (axis : nat) : ndarray :=
  dft_along a axis (nth axis (nd_shape a) 0%nat) (fun z => z).

(** [da.take(x, indices, axis)]. *)
Definition da_take (a : ndarray) (indices : list nat) (axis : nat) : ndarray :=
  mkNd (nd_dtype a) (replace_at axis (List.length indices) (nd_shape a))
    (fun idx =>
       nd_at a (replace_at axis (nth (nth axis idx 0%nat) indices 0%nat) idx)).

(** [np.fft.rfftfreq(n, d)]: [val = 1.0/(n*d)], [N = n//2 + 1],
    [arange(0, N) * val]. *)
Definition rfftfreq (n : nat) (d : R) : list R :=
  let val := 1 / (INR n * d) in
  map (fun k => INR k * val) (seq 0 (n / 2 + 1)%nat).

(** [np.fft.fftfreq(n, d)]: [N = (n-1)//2 + 1], the integers [0 .. N-1]
    followed by [-(n//2) .. -1], all times [val]. *)
Definition fftfreq_index (n : nat) : list Z :=
  let N := Z.to_nat ((Z.of_nat n - 1) / 2 + 1) in
  map Z.of_nat (seq 0 N) ++
  map (fun i => (Z.of_nat i - Z.of_nat (n / 2)%nat)%Z) (seq 0 (n / 2)%nat).

Definition fftfreq (n : nat) (d : R) : list R :=
  let val := 1 / (INR n * d) in
  map (fun k => IZR k * val) (fftfreq_index n).

(** The gather list of an FFT shift of length [n]:
    [concatenate((arange(p2, n), arange(p2)))] with [p2 = (n+1)//2]. *)
Definition shift_indices (n : nat) : list nat :=
  let p2 := ((n + 1) / 2)%nat in
  seq p2 (n - p2)%nat ++ seq 0 p2.

(** [np.fft.fftshift] on a vector. *)
Definition np_fftshift (l : list R) : list R :=
  map (fun i => nth i l 0) (shift_indices (List.length l)).

(** [x.rechunk({axis: size})]: a change of partition only. *)
Definition rechunk (a : ndarray) (axis size : nat) : ndarray := a.

(** [array[key]] for a string key: the coordinate of that name, the default
    index of a dimension without coordinate, [KeyError] otherwise. *)
Definition da_getitem (a : DataArray) (key : string) : M coordv :=
  match dict_get (da_coords a) key with
  | Some c => ret c
  | None =>
      if mem key (da_dims a)
      then ret (Num (arange (nth (get_axis_num a key) (da_shape a) 0%nat)))
      else raise (KeyError key)
  end.

(** [xr.DataArray(data, coords=coords, dims=dims, name=name)]: one dimension
    name per axis, and every coordinate must belong to a dimension and have
    its length; [ValueError] otherwise. *)
Definition coord_fits (dims : list string) (shape : list nat)
    (kc : string * coordv) : bool :=
  mem (fst kc) dims &&
  Nat.eqb (coord_len (snd kc)) (nth (index_of (fst kc) dims) shape 0%nat).

Definition xr_DataArray (data : ndarray) (coords : dict coordv)
    (dims : list string) (name : string) : M DataArray :=
  if Nat.eqb (List.length dims) (List.length (nd_shape data)) &&
     forallb (coord_fits dims (nd_shape data)) coords
  then ret (mkDA (Some name) dims data coords no_attrs)
  else raise ValueError.

(** [array.mean(dim=dims)] broadcast back against [array]: the mean along
    each of the named axes in turn; a name that is no dimension of the array
    is a [ValueError]. *)
Definition mean_along (a : ndarray) (axis : nat) : ndarray :=
  let n := nth axis (nd_shape a) 0%nat in
  mkNd (nd_dtype a) (nd_shape a)
    (fun idx =>
       Cdivr (Csum (map (fun j => nd_at a (replace_at axis j idx)) (seq 0 n)))
             (INR n)).

Definition da_mean (a : DataArray) (dims : list string) : M ndarray :=
  if forallb (fun di => mem di (da_dims a)) dims
  then ret (fold_left (fun m di => mean_along m (get_axis_num a di))
                      dims (da_data a))
  else raise ValueError.

(** [array - mean_array]. *)
Definition da_sub (a : DataArray) (m : ndarray) : DataArray :=
  mkDA (da_name a) (da_dims a)
       (mkNd (nd_dtype (da_data a)) (da_shape a)
             (fun idx => Csub (nd_at (da_data a) idx) (nd_at m idx)))
       (da_coords a) no_attrs.

(* ================================================================== *)
(** ** xscale/spectral/fft.py *)
(* ================================================================== *)

(** The [detrend] argument.  [fft] tests it with [is], which compares
    objects and not their content: [Zeromean] and [Linear] are the string
    objects of the literals ['zeromean'] and ['linear'] of the module (a
    literal in the caller's source is the same, interned, object);
    [OtherStr s] is any other string object, of content [s], for instance
    one that was read or assembled at run time, and [s] may well be equal
    to one of the two literals. *)
Inductive detrend_opt : Type :=
| DetrendNone
| Zeromean
| Linear
| OtherStr (s : string).

(** The [axes] argument of [_fftshift]: [None], an integer, a sequence. *)
Inductive axes_arg : Type :=
| AxesNone
| AxesInt (k : nat)
| AxesSeq (ks : list nat).

(** [_fftshift(x, axes)], for axes that are positions of the array.  For a
    position outside the array [x.shape[k]] raises [IndexError]; the
    transform loop passes the axis number of a dimension of the array. *)
Definition _fftshift (x : ndarray) (axes : axes_arg) : ndarray :=
  let axes :=
    match axes with
    | AxesNone => seq 0 (List.length (nd_shape x))
    | AxesInt k => [k]
    | AxesSeq ks => ks
    end in
  fold_left
    (fun x k =>
       let n := nth k (nd_shape x) 0%nat in
       da_take x (shift_indices n) k)
    axes x.

Definition _detrend (array : DataArray) (dim : list string) : M DataArray :=
  raise (NotImplementedError
           "The linear detrending option is not implemented yet.").

Definition _tapper (array : DataArray) (dim : list string) : M DataArray :=
  raise (NotImplementedError "The tapering option is not implemented yet.").

(** The first difference [np.diff(c)[0]] of a coordinate. *)
Inductive diffv : Type :=
| DiffNum (r : R)
| DiffTimedelta.

Definition np_diff0 (c : coordv) : M diffv :=
  match c with
  | Num (a :: b :: _) => ret (DiffNum (b - a))
  | Datetime64 (_ :: _ :: _) => ret DiffTimedelta
  | _ => raise IndexError
  end.

(** The loop of [_compute_norm_factor] over the dimensions. *)
Fixpoint norm_loop (array : DataArray) (nfft : dict nat) (tapering : bool)
    (dim : list string) (ps_f psd_f : R) : M (R * R) :=
  match dim with
  | [] => ret (ps_f, psd_f)
  | di :: rest =>
      sd <- (if tapering
             then raise (NotImplementedError
                           "The tapering option is not implemented yet.")
             else
               c <- da_getitem array ("f_" ++ di) ;;
               df <- np_diff0 c ;;
               s1 <- of_option di (dict_get nfft di) ;;
               ret (df, s1, s1)) ;;
      let '(df, s1, s2) := sd in
      if Nat.eqb s1 0 then raise ZeroDivisionError
      else
        match df with
        | DiffTimedelta => raise TypeError
        | DiffNum df =>
            norm_loop array nfft tapering rest
                      (ps_f / (INR s1) ^ 2) (psd_f / (df * INR s2))
        end
  end.

Definition _compute_norm_factor (array : DataArray) (nfft : dict nat)
    (dim : list string) (tapering : bool) : M DataArray :=
  let ps_f := match ps_factor (da_attrs array) with
              | Some f => f | None => 1 end in
  let psd_f := match psd_factor (da_attrs array) with
               | Some f => f | None => 1 end in
  fs <- norm_loop array nfft tapering dim ps_f psd_f ;;
  ret (mkDA (da_name array) (da_dims array) (da_data array) (da_coords array)
            (mkAttrs (Some (fst fs)) (Some (snd fs))
                     (description (da_attrs array)))).

(** The state of the transform loop of [_fft]. *)
Record fft_state : Type := mkSt {
  spectrum_array : ndarray;
  spectrum_coords : dict coordv;
  st_dx : dict (option R);
  first : bool
}.

Definition missing_dimension (di : string) : string :=
  ("Cannot find dimension " ++ di ++ " in DataArray")%string.

Section Transform.

(** [_utils.get_dx(array, di)], of the module [xscale/_utils.py]: the
    resolution of a dimension, computed from its coordinate. *)
Variable get_dx : DataArray -> string -> M R.

(** One iteration of the transform loop, for the requested dimension [di]. *)
Definition fft_step (array : DataArray) (nfft : dict nat) (shift : bool)
    (st : fft_state) (di : string) : M fft_state :=
  if mem di (da_dims array) then
    let axis_num := get_axis_num array di in
    let dim_length := nth axis_num (da_shape array) 0%nat in
    dx_di <- of_option di (dict_get (st_dx st) di) ;;
    d <- match dx_di with
         | None => get_dx array di
         | Some d => ret d
         end ;;
    let dx := dict_set (st_dx st) di (Some d) in
    n <- of_option di (dict_get nfft di) ;;
    if first st && negb (iscomplexobj (spectrum_array st)) then
      let coords :=
        dict_set (spectrum_coords st) ("f_" ++ di) (Num (rfftfreq n d)) in
      tell (CallRfft axis_num) ;;;
      ret (mkSt (rechunk
                   (da_rfft (rechunk (spectrum_array st) axis_num dim_length)
                            axis_num)
                   axis_num dim_length)
                coords dx false)
    else
      let coords :=
        dict_set (spectrum_coords st) ("f_" ++ di) (Num (fftfreq n d)) in
      tell (CallFft axis_num) ;;;
      let arr :=
        rechunk (da_fft (rechunk (spectrum_array st) axis_num dim_length)
                        axis_num)
                axis_num dim_length in
      if shift then
        ret (mkSt (_fftshift arr (AxesInt axis_num))
                  (dict_set coords ("f_" ++ di)
                            (Num (np_fftshift (fftfreq n d))))
                  dx false)
      else ret (mkSt arr coords dx false)
  else
    tell (Warn (missing_dimension di)) ;;; ret st.

Fixpoint fft_loop (array : DataArray) (nfft : dict nat) (shift : bool)
    (dim : list string) (st : fft_state) : M fft_state :=
  match dim with
  | [] => ret st
  | di :: rest =>
      st' <- fft_step array nfft shift st di ;;
      fft_loop array nfft shift rest st'
  end.

(** The dimension names and pass-through coordinates of the spectrum. *)
Definition init_dims (array : DataArray) (dim : list string) : list string :=
  map (fun di => if mem di dim then ("f_" ++ di)%string else di)
      (da_dims array).

Definition init_coords (array : DataArray) (dim : list string)
  : dict coordv :=
  fold_left
    (fun coords di =>
       if mem di dim then coords else dict_set coords di (da_coord array di))
    (da_dims array) [].

Definition _fft (array : DataArray) (nfft : dict nat) (dim : list string)
    (dx : dict (option R)) (shift : bool)
  : M (ndarray * dict coordv * list string) :=
  let spectrum_dims := init_dims array dim in
  st <- fft_loop array nfft shift dim
          (mkSt (da_data array) (init_coords array dim) dx true) ;;
  ret (spectrum_array st, spectrum_coords st, spectrum_dims).

(** The body of [fft] once [nfft], [dim] and [dx] are resolved into
    [new_nfft], [new_dim] and [new_dx]. *)
Definition fft_resolved (array : DataArray) (new_nfft : dict nat)
    (new_dim : list string) (new_dx : dict (option R))
    (detrend : detrend_opt) (tapering shift : bool) : M DataArray :=
  preproc_array <-
    match detrend with
    | Zeromean =>
        mean_array <- da_mean array new_dim ;;
        tell CallLoad ;;;
        ret (da_sub array mean_array)
    | Linear => _detrend array new_dim
    | DetrendNone | OtherStr _ => ret array
    end ;;
  preproc_array <-
    (if tapering then _tapper array new_dim else ret preproc_array) ;;
  res <- _fft preproc_array new_nfft new_dim new_dx shift ;;
  let '(spectrum_array, spectrum_coords, spectrum_dims) := res in
  spec <- xr_DataArray spectrum_array spectrum_coords spectrum_dims
                       "spectrum" ;;
  _compute_norm_factor spec new_nfft new_dim tapering.

(** Vocabulary for the statements about the loop: the requested dimensions
    that the array has, in the order requested; the resolution used for a
    dimension (the entry of [dx], or the value that [get_dx] returns where
    the entry is [None]); the transform and the frequencies of a dimension
    after the first. *)
Definition present (array : DataArray) (dim : list string) : list string :=
  filter (fun di => mem di (da_dims array)) dim.

Definition resolution (array : DataArray) (dx : dict (option R))
    (di : string) (d : R) : Prop :=
  match dict_get dx di with
  | Some (Some d') => d = d'
  | Some None => exists l, get_dx array di = (l, inr d)
  | None => False
  end.

Definition complex_pass (shift : bool) (a : ndarray) (axis : nat)
  : ndarray :=
  if shift then _fftshift (da_fft a axis) (AxesInt axis) else da_fft a axis.

Definition complex_freq (shift : bool) (n : nat) (d : R) : list R :=
  if shift then np_fftshift (fftfreq n d) else fftfreq n d.

(** The arguments [nfft], [dim] and [dx] as the caller gives them, and the
    functions of [xscale/_utils.py] that resolve them. *)
Variables NfftArg DimArg DxArg : Type.
Variable infer_n_and_dims :
  DataArray -> NfftArg -> DimArg -> M (list nat * list string).
Variable infer_arg_nfft : list nat -> DimArg -> M (dict nat).
Variable infer_arg_dx : DxArg -> DimArg -> M (dict (option R)).
(** ['%s' % dim]. *)
Variable format_dim : DimArg -> M string.

Definition fft (array : DataArray) (nfft : NfftArg) (dim : DimArg)
    (dx : DxArg) (detrend : detrend_opt) (tapering shift : bool)
  : M DataArray :=
  r <- infer_n_and_dims array nfft dim ;;
  let '(temp_nfft, new_dim) := r in
  new_nfft <- infer_arg_nfft temp_nfft dim ;;
  new_dx <- infer_arg_dx dx dim ;;
  fft_resolved array new_nfft new_dim new_dx detrend tapering shift.

(** [(spec * da.conj(spec)).real * factor], under a new name and with a
    description as only attribute. *)
Definition power (spec : DataArray) (factor : R) (name descr : string)
  : DataArray :=
  mkDA (Some name) (da_dims spec)
       (mkNd float64 (da_shape spec)
             (fun idx =>
                let z := nd_at (da_data spec) idx in
                Creal (re (Cmul z (Cconj z)) * factor)))
       (da_coords spec)
       (mkAttrs None None (Some descr)).

Definition ps (array : DataArray) (nfft : NfftArg) (dim : DimArg)
    (dx : DxArg) (detrend : detrend_opt) (tapering shift : bool)
  : M DataArray :=
  spec <- fft array nfft dim dx detrend tapering shift ;;
  factor <- of_option "ps_factor" (ps_factor (da_attrs spec)) ;;
  let name := match da_name array with
              | None => "PS"
              | Some nm => ("PS_" ++ nm)%string
              end in
  d <- format_dim dim ;;
  ret (power spec factor name
         ("Power Spectrum (PS) performed along dimension(s) " ++ d ++ " ")).

Definition psd (array : DataArray) (nfft : NfftArg) (dim : DimArg)
    (dx : DxArg) (detrend : detrend_opt) (tapering shift : bool)
  : M DataArray :=
  spec <- fft array nfft dim dx detrend tapering shift ;;
  factor <- of_option "psd_factor" (psd_factor (da_attrs spec)) ;;
  let name := match da_name array with
              | None => "PSD"
              | Some nm => ("PSD_" ++ nm)%string
              end in
  d <- format_dim dim ;;
  ret (power spec factor name
         ("Power Spectrum Density (PSD) performed along dimension(s) "
            ++ d ++ " ")).

End Transform.

Arguments fft get_dx {NfftArg DimArg DxArg} infer_n_and_dims infer_arg_nfft
  infer_arg_dx array nfft dim dx detrend tapering shift.
Arguments ps get_dx {NfftArg DimArg DxArg} infer_n_and_dims infer_arg_nfft
  infer_arg_dx format_dim array nfft dim dx detrend tapering shift.
Arguments psd get_dx {NfftArg DimArg DxArg} infer_n_and_dims infer_arg_nfft
  infer_arg_dx format_dim array nfft dim dx detrend tapering shift.

(* ================================================================== *)
(** ** xscale/signal/fitting.py *)
(* ================================================================== *)

(** The caller's list objects.  A Python list is passed by reference: the
    store maps the identity of a list to its current content. *)
Definition heap : Type := nat -> list R.

Definition heap_set (h : heap) (l : nat) (v : list R) : heap :=
  fun l' => if Nat.eqb l' l then v else h l'.

(** The [periods] argument of [sinfit]: a number, or a list object. *)
Inductive periods_arg : Type :=
| PScalar (p : R)
| PList (l : nat).

Inductive time_unit : Type :=
| UnitD | UnitH | UnitM | UnitS | UnitMs | UnitUs | UnitNs.

Definition unit_seconds (u : time_unit) : R :=
  match u with
  | UnitD => 86400
  | UnitH => 3600
  | UnitM => 60
  | UnitS => 1
  | UnitMs => / 1000
  | UnitUs => / 1000000
  | UnitNs => / 1000000000
  end.

(** [list.sort(reverse=True)]: the content in descending order. *)
Fixpoint insert_desc (x : R) (l : list R) : list R :=
  match l with
  | [] => [x]
  | y :: l' => if Rle_dec y x then x :: l else y :: insert_desc x l'
  end.

Definition sort_reverse (l : list R) : list R := fold_right insert_desc [] l.

(** [np.arctan2(y, x)] over the reals: the angle of the point [(x, y)],
    between [-pi] and [pi].  The reals have one zero: where floating point
    tells [-0.0] from [0.0] ([np.arctan2(-0.0, x)] is [-pi] for [x <= -0.0])
    this definition gives the angle of the same direction, [pi] on the
    negative axis and [0] at the origin. *)
Definition arctan2 (y x : R) : R :=
  if Rlt_dec 0 x then atan (y / x)
  else if Rlt_dec x 0 then
         if Rle_dec 0 y then atan (y / x) + PI else atan (y / x) - PI
  else if Rlt_dec 0 y then PI / 2
  else if Rlt_dec y 0 then - PI / 2
  else 0.

Definition insert_at {A} (k : nat) (v : A) (l : list A) : list A :=
  firstn k l ++ v :: skipn k l.

Definition remove_at {A} (k : nat) (l : list A) : list A :=
  firstn k l ++ skipn (S k) l.

(** The array with the work dimension first and the other dimensions
    stacked: one column of samples per index of the other dimensions. *)
Record stacked : Type := mkStacked {
  sk_dims : list string;
  sk_shape : list nat;
  sk_coords : dict coordv;
  sk_col : list nat -> list R
}.

Definition _order_and_stack (obj : DataArray) (dim : string) : stacked :=
  let k := get_axis_num obj dim in
  mkStacked (remove_at k (da_dims obj)) (remove_at k (da_shape obj))
            (filter (fun kc => negb (String.eqb (fst kc) dim)) (da_coords obj))
            (fun bidx =>
               map (fun i => re (nd_at (da_data obj) (insert_at k i bidx)))
                   (seq 0 (nth k (da_shape obj) 0%nat))).

(** The result of [sinfit]: per period an amplitude and a phase (degrees),
    one offset, for every index of the dimensions that were not fitted. *)
Record Modes : Type := mkModes {
  periods_coord : list R;
  periods_units : time_unit;
  modes_dims : list string;
  modes_shape : list nat;
  modes_coords : dict coordv;
  amplitude : list nat -> list R;
  phase : list nat -> list R;
  offset : list nat -> R
}.

(** [vstack([cos(2 pi f t) for f in reversed(freqs)] + [ones(len(t))] +
            [sin(2 pi f t) for f in freqs]).T], as the list of its columns. *)
Definition design_matrix (freqs t : list R) : list (list R) :=
  map (fun f => map (fun ti => cos (2 * PI * f * ti)) t) (rev freqs) ++
  [map (fun _ => 1) t] ++
  map (fun f => map (fun ti => sin (2 * PI * f * ti)) t) freqs.

Definition zip_with {A B C} (f : A -> B -> C) (l : list A) (l' : list B)
  : list C :=
  map (fun ab => f (fst ab) (snd ab)) (combine l l').

Section Fit.

(** [da.linalg.lstsq(x, y)[0]] for the matrix with columns [x] and one
    right-hand side [y]. *)
Variable lstsq : list (list R) -> list R -> list R.

(** Lines 107-134 of [sinfit]: the arguments are normalised, the caller's
    list of periods is sorted in place, and the design matrix is built.
    Returns the sorted periods, the matrix and the stacked data.  The array
    is taken to be chunked, as [array.chunks[...]] requires, dimension
    names are compared by their content (the [is not] of [_order_and_stack]
    compares the objects), [periods] is a number or a list (nothing else
    has the [sort] of line 113) and the periods are of a size that
    [pd.to_timedelta] can hold. *)
Definition sinfit_system (h : heap) (array : DataArray)
    (periods : periods_arg) (dim : option string) (coord : option coordv)
    (unit : time_unit)
  : heap * M (list R * list (list R) * stacked) :=
  match (match dim with
         | Some d => Some d
         | None => nth_error (da_dims array) 0
         end) with
  | None => (h, raise IndexError)
  | Some dim =>
      let plist := match periods with
                   | PScalar p => [p]
                   | PList l => h l
                   end in
      let n := (2 * List.length plist + 1)%nat in
      let sorted := sort_reverse plist in
      let h' := match periods with
                | PScalar _ => h
                | PList l => heap_set h l sorted
                end in
      (h',
       if negb (mem dim (da_dims array)) then raise ValueError
       else
         let array_stacked := _order_and_stack array dim in
         coord <- match coord with
                  | Some c => ret c
                  | None => da_getitem array dim
                  end ;;
         r <- match coord with
              | Datetime64 ticks =>
                  ret (map (fun x => IZR x * / 1000000000) ticks,
                       map (fun p => 1 / (p * unit_seconds unit)) sorted)
              | Num _ =>
                  (* [freqs = 1. / periods] with [periods] a list *)
                  raise TypeError
              end ;;
         let '(t, freqs) := r in
         ret (sorted, design_matrix freqs t, array_stacked))
  end.

(** Lines 136-155: solution of the system and its decomposition. *)
Definition sinfit_modes (periods : list R) (x : list (list R))
    (array_stacked : stacked) (unit : time_unit) : Modes :=
  let n := (2 * List.length periods + 1)%nat in
  let c := fun bidx => lstsq x (sk_col array_stacked bidx) in
  let b := fun bidx => rev (firstn (n / 2) (c bidx)) in
  let a := fun bidx => skipn (n / 2 + 1) (c bidx) in
  mkModes periods unit
          (sk_dims array_stacked) (sk_shape array_stacked)
          (sk_coords array_stacked)
          (fun bidx =>
             zip_with (fun a b => sqrt (a ^ 2 + b ^ 2)) (a bidx) (b bidx))
          (fun bidx =>
             zip_with (fun a b => arctan2 b a * 180 / PI) (a bidx) (b bidx))
          (fun bidx => nth (n / 2) (c bidx) 0).

Definition sinfit (h : heap) (array : DataArray) (periods : periods_arg)
    (dim : option string) (coord : option coordv) (unit : time_unit)
  : heap * M Modes :=
  let (h', sys) := sinfit_system h array periods dim coord unit in
  (h',
   r <- sys ;;
   let '(sorted, x, array_stacked) := r in
   ret (sinfit_modes sorted x array_stacked unit)).

End Fit.

(** [sinval(modes, coord)]: the sum of the modes at the coordinates, folded
    from the offset over the period index; element [i] of the result at the
    index [bidx] of the other dimensions. *)
Definition sinval (modes : Modes) (coord : coordv) (bidx : list nat)
  : list R :=
  let '(t, periods) :=
    match coord with
    | Datetime64 ticks =>
        (map (fun x => IZR x * / 1000000000) ticks,
         map (fun p => p * unit_seconds (periods_units modes))
             (periods_coord modes))
    | Num l => (l, periods_coord modes)
    end in
  map (fun ti =>
         fold_left
           (fun res p =>
              res + nth p (amplitude modes bidx) 0 *
                    sin (2 * PI * ti / nth p periods 0 +
                         nth p (phase modes bidx) 0 * PI / 180))
           (seq 0 (List.length periods))
           (offset modes bidx))
      t.

(* ================================================================== *)
(** ** Vocabulary of the statements *)
(* ================================================================== *)

(** The spacing [np.diff(array['f_' + di])[0]] between the first two
    frequency bins of dimension [di] of a spectrum. *)
Definition bin_spacing (a : DataArray) (di : string) : option R :=
  match outcome (da_getitem a ("f_" ++ di)) with
  | inr (Num (x0 :: x1 :: _)) => Some (x1 - x0)
  | _ => None
  end.

(** The order of a list sorted with [reverse=True]. *)
Definition descending : R -> R -> Prop := fun a b => b <= a.

(** The products [prod 1/nfft^2] and [prod 1/(df * nfft)]. *)
Definition ps_scale (ns : list nat) : R :=
  fold_right Rmult 1 (map (fun n => 1 / INR n ^ 2) ns).

Definition psd_scale (dfs : list R) (ns : list nat) : R :=
  fold_right Rmult 1 (zip_with (fun df n => 1 / (df * INR n)) dfs ns).

(* ================================================================== *)
(** ** Sample inputs *)
(* ================================================================== *)

(** The real series [0, 1, ..., 7] along [t], sampled with unit spacing. *)
Definition ramp8 : DataArray :=
  mkDA None ["t"%string]
       (mkNd float64 [8%nat] (fun idx => Creal (INR (nth 0 idx 0%nat))))
       [("t"%string, Num (arange 8))] no_attrs.

(** A real 8 x 4 field over [t] and [x]. *)
Definition grid84 : DataArray :=
  mkDA (Some "u"%string) ["t"%string; "x"%string]
       (mkNd float64 [8%nat; 4%nat]
             (fun idx => Creal (INR (nth 0 idx 0%nat) * INR (nth 1 idx 0%nat))))
       [("t"%string, Num (arange 8)); ("x"%string, Num (arange 4))] no_attrs.

(** Modelled from the spec: [_utils.get_dx] of [xscale/_utils.py], which is
    not part of the sources at hand; the resolution of a dimension is the
    spacing of its coordinate values. *)
Definition spacing_get_dx (a : DataArray) (di : string) : M R :=
  match da_coord a di with
  | Num (x0 :: x1 :: _) => ret (x1 - x0)
  | _ => raise IndexError
  end.

(** Modelled from the spec: the resolver [_utils.infer_n_and_dims] and
    [_utils.infer_arg] of [xscale/_utils.py], not part of the sources at
    hand, for a call that lists dimensions of the array, leaves [nfft] unset
    (every length defaults to the current length of the dimension) and gives
    [dx] as one number or not at all. *)
Definition listed_infer_n_and_dims (a : DataArray) (nfft : unit)
    (dim : list string) : M (list nat * list string) :=
  ret (map (fun di => nth (get_axis_num a di) (da_shape a) 0%nat) dim, dim).

Definition listed_infer_arg_nfft (temp_nfft : list nat) (dim : list string)
  : M (dict nat) :=
  ret (combine dim temp_nfft).

Definition listed_infer_arg_dx (dx : option R) (dim : list string)
  : M (dict (option R)) :=
  ret (map (fun di => (di, dx)) dim).

Definition listed_format_dim (dim : list string) : M string :=
  ret (String.concat ", " dim).

(** The signal [2 sin(2 pi t/24) + sin(2 pi t/12) + 5] at the hours
    [t = 0 .. 239], over a numeric coordinate and over a [datetime64]
    coordinate of hourly ticks. *)
Definition tide (t : R) : R :=
  2 * sin (2 * PI * t / 24) + 1 * sin (2 * PI * t / 12) + 5.

Definition hourly : DataArray :=
  mkDA None ["t"%string]
       (mkNd float64 [240%nat]
             (fun idx => Creal (tide (INR (nth 0 idx 0%nat)))))
       [("t"%string, Num (arange 240))] no_attrs.

Definition hourly_datetime : DataArray :=
  mkDA None ["time"%string]
       (mkNd float64 [240%nat]
             (fun idx => Creal (tide (INR (nth 0 idx 0%nat)))))
       [("time"%string,
         Datetime64 (map (fun i => (Z.of_nat i * 3600000000000)%Z)
                         (seq 0 240)))]
       no_attrs.

(** A store in which the caller holds the list [[12., 24.]] as object 0. *)
Definition callers_store : heap := fun _ => [12; 24].

(** A stand-in for the solver in sample calls: the zero vector. *)
Definition zero_lstsq (x : list (list R)) (y : list R) : list R :=
  map (fun _ => 0) x.

(* ================================================================== *)
(** ** Further functions and vocabulary *)
(* ================================================================== *)

(** The gather list of [_ifftshift] for length [n]:
    [concatenate((arange(p2, n), arange(p2)))] with [p2 = n - (n+1)//2]. *)
Definition ishift_indices (n : nat) : list nat :=
  let p2 := (n - (n + 1) / 2)%nat in
  seq p2 (n - p2)%nat ++ seq 0 p2.

(** [_ifftshift(x, axes)] of [fft.py].  Its [return x] (line 272) is
    indented with a tab while the lines before it use spaces; the module
    loads under Python 2 only, where a tab reaches the next multiple of
    eight columns, the depth of the loop body: the function returns at the
    end of the first iteration, and falls off its end, returning [None],
    when there is no axis to go through. *)
Definition _ifftshift (x : ndarray) (axes : axes_arg) : option ndarray :=
  let axes :=
    match axes with
    | AxesNone => seq 0 (List.length (nd_shape x))
    | AxesInt k => [k]
    | AxesSeq ks => ks
    end in
  match axes with
  | [] => None
  | k :: _ =>
      let n := nth k (nd_shape x) 0%nat in
      Some (da_take x (ishift_indices n) k)
  end.

(** Scalar product of a coefficient vector with a row of basis values, and
    the values [x . c] of the fitted model at the samples, for a design
    matrix given by its columns. *)
Definition dot (u v : list R) : R := fold_right Rplus 0 (zip_with Rmult u v).

Definition fitted (x : list (list R)) (c : list R) : list R :=
  map (fun i => dot c (map (fun col => nth i col 0) x))
      (seq 0 (List.length (nth 0 x []))).

(** A complex 4 x 2 field over [x] and [y]. *)
Definition cgrid42 : DataArray :=
  mkDA None ["x"%string; "y"%string]
       (mkNd complex128 [4%nat; 2%nat]
             (fun idx => mkC (INR (nth 0 idx 0%nat)) (INR (nth 1 idx 0%nat))))
       [("x"%string, Num (arange 4)); ("y"%string, Num (arange 2))] no_attrs.

(** The constant series 0 over four hourly [datetime64] ticks. *)
Definition flat_datetime : DataArray :=
  mkDA None ["time"%string]
       (mkNd float64 [4%nat] (fun _ => C0))
       [("time"%string,
         Datetime64 (map (fun i => (Z.of_nat i * 3600000000000)%Z)
                         (seq 0 4)))]
       no_attrs.

(** The modes of the signal [tide]: periods 24 and 12, amplitudes 2 and 1,
    phases 0, offset 5. *)
Definition tide_modes : Modes :=
  mkModes [24; 12] UnitH [] [] []
          (fun _ => [2; 1]) (fun _ => [0; 0]) (fun _ => 5).



(* ================================================================== *)
(** * Properties *)
(* ================================================================== *)

(** ** The effect monad *)

Lemma bind_returns {A B} (m : M A) (f : A -> M B) lg b :
  bind m f = (lg, inr b) ->
  exists l1 a l2, m = (l1, inr a) /\ f a = (l2, inr b) /\ lg = l1 ++ l2.
Proof.
  unfold bind. destruct m as [l1 [e | a]]; [discriminate |].
  destruct (f a) as [l2 r] eqn:E. intros H. inversion H; subst.
  exists l1, a, l2. auto.
Qed.

Lemma bind_raises_left {A B} (m : M A) (f : A -> M B) l e :
  m = (l, inl e) -> bind m f = (l, inl e).
Proof. intros ->. reflexivity. Qed.


Lemma bind_ret {A B} (a : A) (f : A -> M B) : bind (ret a) f = f a.
Proof. unfold bind, ret. destruct (f a); reflexivity. Qed.

Lemma bind_ext_on {A B} (m : M A) (f g : A -> M B) :
  (forall l a, m = (l, inr a) -> f a = g a) -> bind m f = bind m g.
Proof.
  intros H. unfold bind. destruct m as [l [e | a]]; [reflexivity |].
  now rewrite (H l a eq_refl).
Qed.

Lemma of_option_returns {A} key (o : option A) lg a :
  of_option key o = (lg, inr a) -> o = Some a /\ lg = [].
Proof.
  destruct o; unfold of_option, ret, raise; intros H; inversion H; auto.
Qed.

Lemma transforms_app l l' : transforms (l ++ l') = transforms l ++ transforms l'.
Proof. apply filter_app. Qed.

(** ** Lists, dictionaries *)

Lemma mem_true_iff s l : mem s l = true <-> In s l.
Proof.
  unfold mem. rewrite existsb_exists. split.
  - intros [x [Hx He]]. apply String.eqb_eq in He. now subst.
  - intros H. exists s. split; [assumption | apply String.eqb_refl].
Qed.

Lemma index_of_lt s l : In s l -> (index_of s l < List.length l)%nat.
Proof.
  induction l as [| x l IH]; intros H; [destruct H |]. simpl.
  destruct (String.eqb s x) eqn:E; [lia |].
  destruct H as [-> | H]; [rewrite String.eqb_refl in E; discriminate |].
  apply IH in H. lia.
Qed.

Lemma dict_get_set_same {V} (d : dict V) k v :
  dict_get (dict_set d k v) k = Some v.
Proof.
  induction d as [| [k' v'] d IH]; simpl.
  - now rewrite String.eqb_refl.
  - destruct (String.eqb k k') eqn:E; simpl; rewrite E; auto.
Qed.

Lemma dict_get_set_other {V} (d : dict V) k k' v :
  k <> k' -> dict_get (dict_set d k v) k' = dict_get d k'.
Proof.
  intros Hne. induction d as [| [k0 v0] d IH]; simpl.
  - destruct (String.eqb k' k) eqn:E; auto.
    apply String.eqb_eq in E. congruence.
  - destruct (String.eqb k k0) eqn:E; simpl.
    + apply String.eqb_eq in E. subst k0.
      destruct (String.eqb k' k) eqn:E'; auto.
      apply String.eqb_eq in E'. congruence.
    + now rewrite IH.
Qed.

Lemma dict_set_set {V} (d : dict V) k v v' :
  dict_set (dict_set d k v) k v' = dict_set d k v'.
Proof.
  induction d as [| [k0 v0] d IH]; simpl.
  - now rewrite String.eqb_refl.
  - destruct (String.eqb k k0) eqn:E; simpl; rewrite E;
      [reflexivity | now f_equal].
Qed.

Lemma freq_name_inj a b : ("f_" ++ a)%string = ("f_" ++ b)%string -> a = b.
Proof. simpl. intros H. now inversion H. Qed.

Lemma nth_replace_at_same {A} k (v d : A) l :
  (k < List.length l)%nat -> nth k (replace_at k v l) d = v.
Proof.
  revert k. induction l as [| x l IH]; intros [| k] H; simpl in *;
    try lia; auto. apply IH. lia.
Qed.

Lemma replace_at_length {A} k (v : A) l :
  List.length (replace_at k v l) = List.length l.
Proof.
  revert k. induction l as [| x l IH]; intros [| k]; simpl; auto.
Qed.

Lemma nth_map_lt {A B} (f : A -> B) l i d d' :
  (i < List.length l)%nat -> nth i (map f l) d = f (nth i l d').
Proof.
  revert i. induction l as [| x l IH]; intros [| i] H; simpl in *;
    try lia; auto. apply IH. lia.
Qed.

(** ** The FFT shift *)

Lemma half_up_le n : ((n + 1) / 2 <= n)%nat.
Proof.
  pose proof (Nat.div_mod_eq (n + 1) 2).
  pose proof (Nat.mod_upper_bound (n + 1) 2). lia.
Qed.

Lemma shift_indices_length n : List.length (shift_indices n) = n.
Proof.
  unfold shift_indices. rewrite length_app, !length_seq.
  pose proof (half_up_le n). lia.
Qed.

(** The gather list is the rotation [i |-> (i + ceil(n/2)) mod n]. *)
Lemma shift_indices_nth n i :
  (i < n)%nat ->
  nth i (shift_indices n) 0%nat = ((i + (n + 1) / 2) mod n)%nat.
Proof.
  intros Hi. unfold shift_indices.
  pose proof (half_up_le n) as Hp.
  set (p2 := ((n + 1) / 2)%nat) in *.
  destruct (Nat.lt_ge_cases i (n - p2)) as [Hlt | Hge].
  - rewrite app_nth1 by (rewrite length_seq; lia).
    rewrite seq_nth by lia. rewrite Nat.mod_small by lia. lia.
  - rewrite app_nth2 by (rewrite length_seq; lia).
    rewrite length_seq, seq_nth by lia.
    apply Nat.mod_unique with (q := 1%nat); lia.
Qed.

Lemma np_fftshift_length l : List.length (np_fftshift l) = List.length l.
Proof. unfold np_fftshift. now rewrite length_map, shift_indices_length. Qed.

Lemma np_fftshift_nth l i :
  (i < List.length l)%nat ->
  nth i (np_fftshift l) 0 =
  nth ((i + (List.length l + 1) / 2) mod List.length l) l 0.
Proof.
  intros Hi. unfold np_fftshift.
  rewrite (nth_map_lt _ _ _ _ 0%nat) by (rewrite shift_indices_length; lia).
  now rewrite shift_indices_nth.
Qed.

Lemma fftfreq_positive_count n :
  Z.to_nat ((Z.of_nat (S n) - 1) / 2 + 1) = S (n / 2).
Proof.
  replace (Z.of_nat (S n) - 1)%Z with (Z.of_nat n) by lia.
  change 2%Z with (Z.of_nat 2). rewrite <- Nat2Z.inj_div. lia.
Qed.

Lemma fftfreq_index_length n : List.length (fftfreq_index n) = n.
Proof.
  unfold fftfreq_index. rewrite length_app, !length_map, !length_seq.
  destruct n as [| n]; [reflexivity |].
  rewrite fftfreq_positive_count.
  pose proof (Nat.div_mod_eq n 2). pose proof (Nat.div_mod_eq (S n) 2).
  pose proof (Nat.mod_upper_bound n 2). pose proof (Nat.mod_upper_bound (S n) 2).
  lia.
Qed.

Lemma fftfreq_length n d : List.length (fftfreq n d) = n.
Proof. unfold fftfreq. now rewrite length_map, fftfreq_index_length. Qed.

Lemma rfftfreq_length n d : List.length (rfftfreq n d) = (n / 2 + 1)%nat.
Proof. unfold rfftfreq. now rewrite length_map, length_seq. Qed.

Lemma fftfreq_zero n d : nth 0 (fftfreq n d) 0 = 0.
Proof.
  unfold fftfreq, fftfreq_index.
  destruct n as [| n]; [reflexivity |].
  rewrite fftfreq_positive_count. simpl. lra.
Qed.

(** ** The transform loop of [_fft] *)

Section TransformFacts.

Variable get_dx : DataArray -> string -> M R.

Lemma fft_step_absent array nfft shift st di :
  mem di (da_dims array) = false ->
  fft_step get_dx array nfft shift st di
  = ([Warn (missing_dimension di)], inr st).
Proof. intros H. unfold fft_step. rewrite H. reflexivity. Qed.

Lemma fft_step_present array nfft shift st di lg st' :
  mem di (da_dims array) = true ->
  fft_step get_dx array nfft shift st di = (lg, inr st') ->
  exists n d lg0,
    dict_get nfft di = Some n /\
    resolution get_dx array (st_dx st) di d /\
    let axis := get_axis_num array di in
    let dx' := dict_set (st_dx st) di (Some d) in
    if first st && negb (iscomplexobj (spectrum_array st)) then
      lg = lg0 ++ [CallRfft axis] /\
      st' = mkSt (da_rfft (spectrum_array st) axis)
                 (dict_set (spectrum_coords st) ("f_" ++ di)
                           (Num (rfftfreq n d)))
                 dx' false
    else
      lg = lg0 ++ [CallFft axis] /\
      st' = mkSt (complex_pass shift (spectrum_array st) axis)
                 (dict_set (spectrum_coords st) ("f_" ++ di)
                           (Num (complex_freq shift n d)))
                 dx' false.
Proof.
  intros Hmem. unfold fft_step. rewrite Hmem. intros H.
  apply bind_returns in H as (l1 & dxo & l2 & H1 & H & ->).
  apply of_option_returns in H1 as [Hdx ->].
  apply bind_returns in H as (l3 & d & l4 & H3 & H & ->).
  apply bind_returns in H as (l5 & n & l6 & H5 & H & ->).
  apply of_option_returns in H5 as [Hn ->].
  exists n, d, l3. split; [assumption |]. split.
  { unfold resolution. rewrite Hdx. destruct dxo as [d' |].
    - unfold ret in H3. now inversion H3.
    - now exists l3. }
  cbv zeta.
  destruct (first st && negb (iscomplexobj (spectrum_array st))).
  - unfold bind, tell, ret in H. simpl in H. inversion H; subst.
    split; reflexivity.
  - unfold complex_pass, complex_freq. destruct shift.
    + unfold bind, tell, ret in H. simpl in H. inversion H; subst.
      split; [reflexivity |]. f_equal. apply dict_set_set.
    + unfold bind, tell, ret in H. simpl in H. inversion H; subst.
      split; reflexivity.
Qed.

Lemma resolution_set array dx di d di' d' :
  resolution get_dx array dx di d ->
  resolution get_dx array (dict_set dx di (Some d)) di' d' ->
  resolution get_dx array dx di' d'.
Proof.
  unfold resolution. intros Hd H.
  destruct (string_dec di di') as [<- | Hne].
  - rewrite dict_get_set_same in H. now subst.
  - now rewrite dict_get_set_other in H.
Qed.

(** Once the first transform is done, every further dimension goes through
    the complex transform. *)
Lemma fft_loop_complex array nfft shift dx0 dim : forall st lg st',
  first st = false ->
  (forall di d, resolution get_dx array (st_dx st) di d -> resolution get_dx array dx0 di d) ->
  fft_loop get_dx array nfft shift dim st = (lg, inr st') ->
  spectrum_array st' =
    fold_left (fun a di => complex_pass shift a (get_axis_num array di))
              (present array dim) (spectrum_array st) /\
  (forall di, In di (present array dim) ->
     exists n d, dict_get nfft di = Some n /\ resolution get_dx array dx0 di d /\
       dict_get (spectrum_coords st') ("f_" ++ di)
       = Some (Num (complex_freq shift n d))) /\
  (forall k, (forall di, In di (present array dim) -> k <> ("f_" ++ di)%string) ->
     dict_get (spectrum_coords st') k = dict_get (spectrum_coords st) k).
Proof.
  induction dim as [| di rest IH]; intros st lg st' Hfirst Hres H.
  - simpl in H. unfold ret in H. inversion H; subst. simpl.
    split; [reflexivity |]. split; [intros di [] | reflexivity].
  - simpl in H. apply bind_returns in H as (l1 & st1 & l2 & Hstep & Hloop & ->).
    unfold present. simpl. fold (present array rest).
    destruct (mem di (da_dims array)) eqn:Hmem.
    + apply fft_step_present in Hstep as (n & d & lg0 & Hn & Hd & Hst);
        [| assumption].
      cbv zeta in Hst. rewrite Hfirst in Hst. simpl in Hst.
      destruct Hst as [_ ->].
      apply IH in Hloop as (Harr & Hcoords & Hother); simpl;
        [| reflexivity
         | intros di' d' Hr; apply Hres; eapply resolution_set; eauto].
      simpl in *. split; [assumption |]. split.
      * intros di' [<- | Hin]; [| now apply Hcoords].
        destruct (in_dec string_dec di (present array rest)) as [Hin | Hnin];
          [now apply Hcoords |].
        exists n, d. repeat split; [assumption | now apply Hres |].
        rewrite Hother.
        -- apply dict_get_set_same.
        -- intros di' Hin E. apply freq_name_inj in E. now subst.
      * intros k Hk. rewrite Hother by (intros; apply Hk; now right).
        apply dict_get_set_other. intros E. now apply (Hk di); [left |].
    + rewrite fft_step_absent in Hstep by assumption.
      inversion Hstep; subst. now apply IH in Hloop.
Qed.

(** On real data the first requested dimension that the array has goes
    through the real transform, the following ones through the complex one. *)
Lemma fft_loop_real array nfft shift dim : forall st lg st',
  first st = true ->
  iscomplexobj (spectrum_array st) = false ->
  fft_loop get_dx array nfft shift dim st = (lg, inr st') ->
  match present array dim with
  | [] => st' = st
  | d1 :: rest =>
      spectrum_array st' =
        fold_left (fun a di => complex_pass shift a (get_axis_num array di))
                  rest
                  (da_rfft (spectrum_array st) (get_axis_num array d1)) /\
      (~ In d1 rest ->
         exists n d, dict_get nfft d1 = Some n /\
           resolution get_dx array (st_dx st) d1 d /\
           dict_get (spectrum_coords st') ("f_" ++ d1)
           = Some (Num (rfftfreq n d))) /\
      (forall di, In di rest ->
         exists n d, dict_get nfft di = Some n /\
           resolution get_dx array (st_dx st) di d /\
           dict_get (spectrum_coords st') ("f_" ++ di)
           = Some (Num (complex_freq shift n d)))
  end.
Proof.
  induction dim as [| di rest IH]; intros st lg st' Hfirst Hreal H.
  - simpl in H. unfold ret in H. now inversion H.
  - simpl in H. apply bind_returns in H as (l1 & st1 & l2 & Hstep & Hloop & ->).
    unfold present. simpl. fold (present array rest).
    destruct (mem di (da_dims array)) eqn:Hmem.
    + apply fft_step_present in Hstep as (n & d & lg0 & Hn & Hd & Hst);
        [| assumption].
      cbv zeta in Hst. rewrite Hfirst, Hreal in Hst. simpl in Hst.
      destruct Hst as [_ ->].
      apply (fft_loop_complex array nfft shift (st_dx st)) in Hloop
        as (Harr & Hcoords & Hother);
        [| reflexivity | intros di' d' Hr; eapply resolution_set; eauto].
      simpl in *. split; [assumption |]. split; [| assumption].
      intros Hnin. exists n, d. repeat split; try assumption.
      rewrite Hother; [apply dict_get_set_same |].
      intros di' Hin E. apply freq_name_inj in E. now subst.
    + rewrite fft_step_absent in Hstep by assumption.
      inversion Hstep; subst. now apply IH in Hloop.
Qed.

Lemma rfftfreq_nonneg n d : 0 < d -> Forall (fun f => 0 <= f) (rfftfreq n d).
Proof.
  intros Hd. unfold rfftfreq. apply Forall_forall. intros f Hf.
  apply in_map_iff in Hf as [k [<- _]].
  apply Rmult_le_pos; [apply pos_INR |].
  unfold Rdiv. rewrite Rmult_1_l.
  destruct n as [| n].
  - simpl. rewrite Rmult_0_l, Rinv_0. lra.
  - left. apply Rinv_0_lt_compat. apply Rmult_lt_0_compat; [| assumption].
    apply lt_0_INR. lia.
Qed.

(** C1.  On a real-valued array, [_fft] sends the first requested dimension
    (that the array has) through the real-input transform and every following
    one through the complex transform.  The frequency coordinate of the first
    is [rfftfreq(nfft, dx)]: [nfft//2+1] bins, the multiples [k/(nfft*dx)]
    with [k >= 0] (the data axis, transformed without padding, has
    [len//2+1] entries, the same number when [nfft] is the length of the
    dimension); the coordinate of a following dimension is
    [fftfreq(nfft, dx)] with its [nfft] positive and negative bins (rotated
    when [shift] is set).  For the series [0..7] along [t] with [dx = 1] and
    [nfft] the length 8, the output has 5 bins along [f_t] at the frequencies
    [0, 0.125, 0.25, 0.375, 0.5]. *)
Theorem real_fft_on_first_dimension_only :
  (forall array nfft dim dx shift lg arr coords sdims,
      iscomplexobj (da_data array) = false ->
      _fft get_dx array nfft dim dx shift = (lg, inr (arr, coords, sdims)) ->
      match present array dim with
      | [] => arr = da_data array
      | d1 :: rest =>
          arr = fold_left
                  (fun a di => complex_pass shift a (get_axis_num array di))
                  rest (da_rfft (da_data array) (get_axis_num array d1)) /\
          (List.length (da_dims array) = List.length (da_shape array) ->
           nth (get_axis_num array d1)
               (nd_shape (da_rfft (da_data array) (get_axis_num array d1)))
               0%nat
           = (nth (get_axis_num array d1) (da_shape array) 0 / 2 + 1)%nat) /\
          (~ In d1 rest ->
             exists n d, dict_get nfft d1 = Some n /\
               resolution get_dx array dx d1 d /\
               dict_get coords ("f_" ++ d1) = Some (Num (rfftfreq n d)) /\
               List.length (rfftfreq n d) = (n / 2 + 1)%nat /\
               (0 < d -> Forall (fun f => 0 <= f) (rfftfreq n d))) /\
          (forall di, In di rest ->
             exists n d, dict_get nfft di = Some n /\
               resolution get_dx array dx di d /\
               dict_get coords ("f_" ++ di)
               = Some (Num (complex_freq shift n d)) /\
               List.length (complex_freq shift n d) = n)
      end) /\
  (forall shift,
      _fft get_dx ramp8 [("t"%string, nth 0 (da_shape ramp8) 0%nat)]
           ["t"%string] [("t"%string, Some 1)] shift
      = ([CallRfft 0],
         inr (da_rfft (da_data ramp8) 0,
              [("f_t"%string, Num [0; 0.125; 0.25; 0.375; 0.5])],
              ["f_t"%string])) /\
      nd_shape (da_rfft (da_data ramp8) 0) = [5%nat]).
Proof.
  split.
  - intros array nfft dim dx shift lg arr coords sdims Hreal H.
    unfold _fft in H.
    apply bind_returns in H as (l1 & st & l2 & Hloop & Hret & ->).
    unfold ret in Hret. inversion Hret; subst; clear Hret.
    apply fft_loop_real in Hloop; [| reflexivity | assumption].
    destruct (present array dim) as [| d1 rest] eqn:Hp; [now subst |].
    destruct Hloop as (Harr & Hfirst & Hrest). simpl in *.
    split; [assumption |]. split.
    { intros Hnd. apply nth_replace_at_same. unfold get_axis_num.
      assert (Hin : In d1 (present array dim)) by (rewrite Hp; now left).
      apply filter_In in Hin as [_ Hin]. apply mem_true_iff in Hin.
      apply index_of_lt in Hin. unfold da_shape in Hnd. lia. }
    split.
    + intros Hnin. destruct (Hfirst Hnin) as (n & d & Hn & Hd & Hc).
      exists n, d. repeat split; try assumption.
      * apply rfftfreq_length.
      * apply rfftfreq_nonneg.
    + intros di Hin. destruct (Hrest di Hin) as (n & d & Hn & Hd & Hc).
      exists n, d. repeat split; try assumption.
      unfold complex_freq. destruct shift;
        [rewrite np_fftshift_length |]; apply fftfreq_length.
  - intros shift. split; [| reflexivity].
    assert (E : rfftfreq 8 1 = [0; 0.125; 0.25; 0.375; 0.5]).
    { unfold rfftfreq. simpl. repeat (f_equal; try lra). }
    rewrite <- E. reflexivity.
Qed.

End TransformFacts.

(** The 8 x 4 field transformed over [t] then [x] with [shift]: real
    transform along [t], shifted complex transform along [x]. *)
Lemma real_fft_on_first_dimension_only_witness :
  exists lg arr coords,
    _fft spacing_get_dx grid84 [("t", 8%nat); ("x", 4%nat)] ["t"; "x"]
         [("t", Some 1); ("x", None)] true
    = (lg, inr (arr, coords, ["f_t"; "f_x"])) /\
    arr = complex_pass true (da_rfft (da_data grid84) 0) 1 /\
    dict_get coords "f_t" = Some (Num (rfftfreq 8 1)) /\
    dict_get coords "f_x" = Some (Num (np_fftshift (fftfreq 4 (1 - 0)))).
Proof.
  eexists. eexists. eexists. split; [reflexivity |].
  pose proof (proj1 (real_fft_on_first_dimension_only spacing_get_dx)
                grid84 [("t", 8%nat); ("x", 4%nat)] ["t"; "x"]
                [("t", Some 1); ("x", None)] true _ _ _ _
                eq_refl eq_refl) as H.
  simpl in H. destruct H as (Harr & _ & Ht & Hx).
  split; [exact Harr |]. split.
  - destruct Ht as (n & d & Hn & Hd & Hc & _).
    + intros [E | []]. discriminate.
    + inversion Hn; subst. unfold resolution in Hd. simpl in Hd. subst.
      exact Hc.
  - reflexivity.
Defined.

(** ** Shifting *)

Lemma replace_at_nth {A} k (l : list A) d : replace_at k (nth k l d) l = l.
Proof.
  revert k. induction l as [| x l IH]; intros [| k]; simpl; auto.
  now rewrite IH.
Qed.

Lemma even_halves n :
  Nat.even n = true -> (n / 2 + (n + 1) / 2 = n)%nat.
Proof.
  intros H. apply Nat.even_spec in H as [k ->].
  replace (2 * k + 1)%nat with (1 + k * 2)%nat by lia.
  rewrite Nat.div_add by lia.
  replace (2 * k)%nat with (0 + k * 2)%nat by lia.
  rewrite Nat.div_add by lia. simpl. lia.
Qed.

Lemma fftshift_axis_shape x axis :
  nd_shape (_fftshift x (AxesInt axis)) = nd_shape x.
Proof.
  unfold _fftshift. simpl. rewrite shift_indices_length.
  apply replace_at_nth.
Qed.

Lemma fftshift_axis_at x axis idx :
  let m := nth axis (nd_shape x) 0%nat in
  (nth axis idx 0 < m)%nat ->
  nd_at (_fftshift x (AxesInt axis)) idx
  = nd_at x (replace_at axis ((nth axis idx 0 + (m + 1) / 2) mod m)%nat idx).
Proof.
  intros m Hi. unfold _fftshift. simpl. fold m.
  now rewrite shift_indices_nth.
Qed.

Section ShiftFacts.

Variable get_dx : DataArray -> string -> M R.

(** C5.  A dimension that goes through the complex transform with
    [shift = True]: its frequency coordinate, [fftfreq(nfft, dx)] for the
    transform length [nfft[di]] and the resolution [dx[di]] of the call, and
    its data axis are both gathered in the index order
    [ceil(n/2), ..., n-1, 0, ..., ceil(n/2)-1], that is, position [i] holds
    the unshifted entry [(i + ceil(n/2)) mod n]; for an even length [n] the
    zero frequency is at index [n/2]. *)
Theorem shift_rotates_coordinate_and_axis :
  forall array nfft st di lg st',
    mem di (da_dims array) = true ->
    first st && negb (iscomplexobj (spectrum_array st)) = false ->
    fft_step get_dx array nfft true st di = (lg, inr st') ->
    exists n d c,
      dict_get nfft di = Some n /\
      resolution get_dx array (st_dx st) di d /\
      dict_get (spectrum_coords st') ("f_" ++ di) = Some (Num c) /\
      List.length c = n /\
      (forall i, (i < n)%nat ->
         nth i c 0 = nth ((i + (n + 1) / 2) mod n) (fftfreq n d) 0) /\
      (Nat.even n = true -> nth (n / 2) c 0 = 0) /\
      let axis := get_axis_num array di in
      let unshifted := da_fft (spectrum_array st) axis in
      let m := nth axis (nd_shape unshifted) 0%nat in
      nd_shape (spectrum_array st') = nd_shape unshifted /\
      forall idx, (nth axis idx 0 < m)%nat ->
        nd_at (spectrum_array st') idx
        = nd_at unshifted
                (replace_at axis ((nth axis idx 0 + (m + 1) / 2) mod m)%nat idx).
Proof.
  intros array nfft st di lg st' Hmem Hcomplex H.
  apply fft_step_present in H as (n & d & lg0 & Hn & Hd & Hst);
    [| assumption].
  cbv zeta in Hst. rewrite Hcomplex in Hst. destruct Hst as [_ ->].
  exists n, d, (np_fftshift (fftfreq n d)).
  cbn [spectrum_coords spectrum_array complex_freq complex_pass].
  split; [assumption |].
  split; [assumption |].
  split; [apply dict_get_set_same |].
  split; [now rewrite np_fftshift_length, fftfreq_length |].
  split.
  { intros i Hi. rewrite np_fftshift_nth; rewrite fftfreq_length; auto. }
  split.
  { intros Heven. destruct n as [| n]; [reflexivity |].
    assert (Hlt : (S n / 2 < S n)%nat) by (apply Nat.div_lt; lia).
    rewrite np_fftshift_nth; rewrite fftfreq_length; [| assumption].
    rewrite even_halves by assumption.
    rewrite Nat.Div0.mod_same. apply fftfreq_zero. }
  split.
  - apply fftshift_axis_shape.
  - intros idx Hi. now apply fftshift_axis_at.
Qed.

(** C10.  With [shift = True] a real array keeps its first transformed
    dimension unshifted: the step of the loop that takes the real transform
    does not look at [shift]; over the requested dimensions the data are
    the real transform along the first followed by shifted complex
    transforms along the others, and the coordinate of the first is
    [rfftfreq(nfft, dx)] as without shift; over a single dimension the
    results with and without [shift] are equal. *)
Theorem shift_skips_first_real_dimension :
  forall array nfft dx,
    iscomplexobj (da_data array) = false ->
    (forall st di,
        first st = true -> iscomplexobj (spectrum_array st) = false ->
        fft_step get_dx array nfft true st di
        = fft_step get_dx array nfft false st di) /\
    (forall dim lg arr coords sdims,
        _fft get_dx array nfft dim dx true = (lg, inr (arr, coords, sdims)) ->
        forall d1 rest, present array dim = d1 :: rest ->
          arr = fold_left
                  (fun a di =>
                     _fftshift (da_fft a (get_axis_num array di))
                               (AxesInt (get_axis_num array di)))
                  rest (da_rfft (da_data array) (get_axis_num array d1)) /\
          (~ In d1 rest ->
             exists n d, dict_get nfft d1 = Some n /\
               resolution get_dx array dx d1 d /\
               dict_get coords ("f_" ++ d1) = Some (Num (rfftfreq n d)))) /\
    (forall di,
        _fft get_dx array nfft [di] dx true
        = _fft get_dx array nfft [di] dx false) /\
    (forall di detrend tapering,
        fft_resolved get_dx array nfft [di] dx detrend tapering true
        = fft_resolved get_dx array nfft [di] dx detrend tapering false).
Proof.
  intros array nfft dx Hreal.
  assert (Hstep : forall st di,
             first st = true -> iscomplexobj (spectrum_array st) = false ->
             fft_step get_dx array nfft true st di
             = fft_step get_dx array nfft false st di).
  { intros st di Hfirst Hr. unfold fft_step. rewrite Hfirst, Hr. reflexivity. }
  assert (Hfft : forall a, iscomplexobj (da_data a) = false ->
             forall di, _fft get_dx a nfft [di] dx true
                        = _fft get_dx a nfft [di] dx false).
  { intros a Ha di. unfold _fft. simpl. unfold fft_step.
    simpl. rewrite Ha. reflexivity. }
  split; [exact Hstep |]. split; [| split].
  - intros dim lg arr coords sdims H d1 rest Hp.
    unfold _fft in H.
    apply bind_returns in H as (l1 & st & l2 & Hloop & Hret & ->).
    unfold ret in Hret. inversion Hret; subst; clear Hret.
    apply fft_loop_real in Hloop; [| reflexivity | assumption].
    rewrite Hp in Hloop. destruct Hloop as (Harr & Hfirst & _).
    split; [exact Harr | exact Hfirst].
  - now apply Hfft.
  - intros di detrend tapering. unfold fft_resolved.
    apply bind_ext_on. intros l p Hp.
    assert (Hpr : iscomplexobj (da_data p) = false).
    { destruct detrend.
      - unfold ret in Hp. inversion Hp; subst. exact Hreal.
      - apply bind_returns in Hp as (l1 & m & l2 & _ & Hp & _).
        unfold bind, tell, ret in Hp. simpl in Hp. inversion Hp.
        unfold iscomplexobj in *. simpl. exact Hreal.
      - discriminate.
      - unfold ret in Hp. inversion Hp; subst. exact Hreal. }
    destruct tapering; [reflexivity |].
    rewrite !bind_ret. now rewrite Hfft.
Qed.

End ShiftFacts.

(** The second pass over the 8 x 4 field, along [x] of length 4: the zero
    frequency lands at index 2. *)
Lemma shift_rotates_coordinate_and_axis_witness :
  exists lg st' c,
    fft_step spacing_get_dx grid84 [("x", 4%nat)] true
             (mkSt (da_rfft (da_data grid84) 0) [] [("x", Some 1)] false) "x"
    = (lg, inr st') /\
    dict_get (spectrum_coords st') "f_x" = Some (Num c) /\
    List.length c = 4%nat /\ nth 2 c 0 = 0 /\
    nth 0 c 0 = nth 2 (fftfreq 4 1) 0 /\
    nth 3 c 0 = nth 1 (fftfreq 4 1) 0.
Proof.
  eexists. eexists.
  destruct (shift_rotates_coordinate_and_axis spacing_get_dx grid84
              [("x", 4%nat)]
              (mkSt (da_rfft (da_data grid84) 0) [] [("x", Some 1)] false)
              "x" _ _ eq_refl eq_refl eq_refl)
    as (n & d & c & Hn & Hd & Hc & Hlen & Hrot & Hzero & _).
  simpl in Hn. injection Hn as <-.
  unfold resolution in Hd. simpl in Hd. subst d.
  exists c. split; [reflexivity |]. split; [exact Hc |].
  split; [exact Hlen |]. split; [apply Hzero; reflexivity |].
  split; [apply (Hrot 0%nat); lia | apply (Hrot 3%nat); lia].
Defined.

Lemma shift_skips_first_real_dimension_witness :
  _fft spacing_get_dx ramp8 [("t", 8%nat)] ["t"] [("t", None)] true
  = _fft spacing_get_dx ramp8 [("t", 8%nat)] ["t"] [("t", None)] false.
Proof.
  apply (shift_skips_first_real_dimension spacing_get_dx ramp8
           [("t", 8%nat)] [("t", None)] eq_refl).
Defined.

(** ** Normalisation factors *)

Lemma norm_loop_returns array nfft tapering dim :
  forall ps_f psd_f lg fs,
    norm_loop array nfft tapering dim ps_f psd_f = (lg, inr fs) ->
    exists ns dfs,
      Forall2 (fun di n => dict_get nfft di = Some n /\ n <> 0%nat) dim ns /\
      Forall2 (fun di df => bin_spacing array di = Some df) dim dfs /\
      fst fs = ps_f * ps_scale ns /\
      snd fs = psd_f * psd_scale dfs ns.
Proof.
  induction dim as [| di rest IH]; intros ps_f psd_f lg fs H.
  - simpl in H. unfold ret in H. inversion H; subst. exists [], [].
    unfold ps_scale, psd_scale. simpl.
    repeat split; try constructor; lra.
  - simpl in H. apply bind_returns in H as (l1 & sd & l2 & Hsd & H & ->).
    destruct tapering; [discriminate |].
    apply bind_returns in Hsd as (l3 & c & l4 & Hc & Hsd & ->).
    apply bind_returns in Hsd as (l5 & df & l6 & Hdf & Hsd & ->).
    apply bind_returns in Hsd as (l7 & s1 & l8 & Hs1 & Hsd & ->).
    apply of_option_returns in Hs1 as [Hs1 ->].
    unfold ret in Hsd. inversion Hsd; subst; clear Hsd.
    destruct (Nat.eqb s1 0) eqn:Hz; [discriminate |].
    apply Nat.eqb_neq in Hz.
    destruct df as [df |]; [| discriminate].
    apply IH in H as (ns & dfs & Hns & Hdfs & Hps & Hpsd).
    exists (s1 :: ns), (df :: dfs).
    split; [constructor; auto |]. split.
    + constructor; [| assumption].
      unfold bin_spacing. cbn [String.append]. rewrite Hc. simpl.
      destruct c as [[| x0 [| x1 xs]] | [| t0 [| t1 ts]]];
        simpl in Hdf; unfold ret, raise in Hdf; inversion Hdf; reflexivity.
    + rewrite Hps, Hpsd. unfold ps_scale, psd_scale, zip_with. simpl.
      split; unfold Rdiv; ring.
Qed.

Section NormFacts.

Variable get_dx : DataArray -> string -> M R.
Variables NfftArg DimArg DxArg : Type.
Variable infer_n_and_dims :
  DataArray -> NfftArg -> DimArg -> M (list nat * list string).
Variable infer_arg_nfft : list nat -> DimArg -> M (dict nat).
Variable infer_arg_dx : DxArg -> DimArg -> M (dict (option R)).
Variable format_dim : DimArg -> M string.

Lemma fft_resolved_returns array nfft dim dx detrend tapering shift lg out :
  fft_resolved get_dx array nfft dim dx detrend tapering shift
  = (lg, inr out) ->
  exists l1 spec l2,
    _compute_norm_factor spec nfft dim tapering = (l2, inr out) /\
    da_attrs spec = no_attrs /\ lg = l1 ++ l2.
Proof.
  unfold fft_resolved. intros H.
  apply bind_returns in H as (l1 & p & l2 & _ & H & ->).
  apply bind_returns in H as (l3 & p' & l4 & _ & H & ->).
  apply bind_returns in H as (l5 & [[sa sc] sd] & l6 & _ & H & ->).
  apply bind_returns in H as (l7 & spec & l8 & Hspec & H & ->).
  exists (l1 ++ l3 ++ l5 ++ l7), spec, l8.
  split; [assumption |]. split.
  - unfold xr_DataArray in Hspec.
    destruct (_ && _) in Hspec; unfold ret, raise in Hspec;
      inversion Hspec; reflexivity.
  - now rewrite <- !app_assoc.
Qed.

Lemma fft_returns array nfft dim dx detrend tapering shift lg out :
  fft get_dx infer_n_and_dims infer_arg_nfft infer_arg_dx
      array nfft dim dx detrend tapering shift = (lg, inr out) ->
  exists l1 temp_nfft new_dim l2 new_nfft l3 new_dx l4,
    infer_n_and_dims array nfft dim = (l1, inr (temp_nfft, new_dim)) /\
    infer_arg_nfft temp_nfft dim = (l2, inr new_nfft) /\
    infer_arg_dx dx dim = (l3, inr new_dx) /\
    fft_resolved get_dx array new_nfft new_dim new_dx detrend tapering shift
    = (l4, inr out) /\
    lg = l1 ++ l2 ++ l3 ++ l4.
Proof.
  unfold fft. intros H.
  apply bind_returns in H as (l1 & [temp_nfft new_dim] & l2 & H1 & H & ->).
  apply bind_returns in H as (l3 & new_nfft & l4 & H3 & H & ->).
  apply bind_returns in H as (l5 & new_dx & l6 & H5 & H & ->).
  exists l1, temp_nfft, new_dim, l3, new_nfft, l5, new_dx, l6. auto.
Qed.

(** C2.  The spectrum that [fft] returns carries
    [ps_factor = prod 1/nfft^2] and [psd_factor = prod 1/(df * nfft)] over
    the transformed dimensions, [df] being the difference of the first two
    frequency bins of the dimension; [_compute_norm_factor] multiplies these
    products into the factors already on the array, or into 1.0 when there
    are none. *)
Theorem fft_attaches_normalisation_factors :
  (forall array nfft dim lg out,
      _compute_norm_factor array nfft dim false = (lg, inr out) ->
      exists ns dfs,
        Forall2 (fun di n => dict_get nfft di = Some n) dim ns /\
        Forall2 (fun di df => bin_spacing array di = Some df) dim dfs /\
        ps_factor (da_attrs out)
        = Some (match ps_factor (da_attrs array) with
                | Some f => f | None => 1 end * ps_scale ns) /\
        psd_factor (da_attrs out)
        = Some (match psd_factor (da_attrs array) with
                | Some f => f | None => 1 end * psd_scale dfs ns)) /\
  (forall array nfft dim dx detrend tapering shift lg out,
      fft get_dx infer_n_and_dims infer_arg_nfft infer_arg_dx
          array nfft dim dx detrend tapering shift = (lg, inr out) ->
      exists l1 temp_nfft new_dim l2 new_nfft ns dfs,
        infer_n_and_dims array nfft dim = (l1, inr (temp_nfft, new_dim)) /\
        infer_arg_nfft temp_nfft dim = (l2, inr new_nfft) /\
        Forall2 (fun di n => dict_get new_nfft di = Some n) new_dim ns /\
        Forall2 (fun di df => bin_spacing out di = Some df) new_dim dfs /\
        ps_factor (da_attrs out) = Some (ps_scale ns) /\
        psd_factor (da_attrs out) = Some (psd_scale dfs ns)).
Proof.
  assert (Hnorm : forall array nfft dim tapering lg out,
             _compute_norm_factor array nfft dim tapering = (lg, inr out) ->
             exists ns dfs,
               Forall2 (fun di n => dict_get nfft di = Some n) dim ns /\
               Forall2 (fun di df => bin_spacing array di = Some df) dim dfs /\
               ps_factor (da_attrs out)
               = Some (match ps_factor (da_attrs array) with
                       | Some f => f | None => 1 end * ps_scale ns) /\
               psd_factor (da_attrs out)
               = Some (match psd_factor (da_attrs array) with
                       | Some f => f | None => 1 end * psd_scale dfs ns) /\
               da_coords out = da_coords array /\
               da_dims out = da_dims array /\
               da_shape out = da_shape array).
  { intros array nfft dim tapering lg out H. unfold _compute_norm_factor in H.
    apply bind_returns in H as (l1 & fs & l2 & Hloop & H & ->).
    unfold ret in H. inversion H; subst; clear H.
    apply norm_loop_returns in Hloop as (ns & dfs & Hns & Hdfs & Hps & Hpsd).
    exists ns, dfs. simpl. rewrite Hps, Hpsd.
    repeat split; try assumption; try reflexivity.
    eapply Forall2_impl; [| exact Hns]. now intros a b [? _]. }
  split.
  - intros array nfft dim lg out H.
    apply Hnorm in H as (ns & dfs & H1 & H2 & H3 & H4 & _).
    exists ns, dfs. auto.
  - intros array nfft dim dx detrend tapering shift lg out H.
    apply fft_returns in H
      as (l1 & temp & new_dim & l2 & new_nfft & l3 & new_dx & l4
          & H1 & H2 & _ & H & _).
    apply fft_resolved_returns in H as (l5 & spec & l6 & H & Hattrs & _).
    apply Hnorm in H as (ns & dfs & Hns & Hdfs & Hps & Hpsd & Hc & Hd & Hs).
    exists l1, temp, new_dim, l2, new_nfft, ns, dfs.
    rewrite Hattrs in Hps, Hpsd. simpl in Hps, Hpsd.
    rewrite Rmult_1_l in Hps, Hpsd.
    repeat split; try assumption.
    eapply Forall2_impl; [| exact Hdfs].
    intros di df Hdf. unfold bin_spacing, da_getitem, get_axis_num, da_shape in *.
    unfold da_shape in Hs. now rewrite Hc, Hd, Hs.
Qed.

End NormFacts.

(** The series [0..7] transformed along [t]: [nfft = 8], [df = 0.125]. *)
Lemma fft_attaches_normalisation_factors_witness :
  exists out,
    outcome (fft spacing_get_dx listed_infer_n_and_dims listed_infer_arg_nfft
                 listed_infer_arg_dx ramp8 tt ["t"] (Some 1)
                 DetrendNone false false) = inr out /\
    ps_factor (da_attrs out) = Some (ps_scale [8%nat]) /\
    exists df, bin_spacing out "t" = Some df /\
               psd_factor (da_attrs out) = Some (psd_scale [df] [8%nat]).
Proof.
  eexists. split; [reflexivity |].
  destruct (proj2 (fft_attaches_normalisation_factors spacing_get_dx
                     unit (list string) (option R)
                     listed_infer_n_and_dims listed_infer_arg_nfft
                     listed_infer_arg_dx)
              ramp8 tt ["t"] (Some 1) DetrendNone false false _ _ eq_refl)
    as (l1 & temp & new_dim & l2 & new_nfft & ns & dfs
        & H1 & H2 & Hns & Hdfs & Hps & Hpsd).
  unfold listed_infer_n_and_dims, ret in H1. inversion H1; subst; clear H1.
  unfold listed_infer_arg_nfft, ret in H2. inversion H2; subst; clear H2.
  inversion Hns as [| di n dis ns' Hn Hns' ]; subst.
  inversion Hns'; subst. simpl in Hn. injection Hn as <-.
  inversion Hdfs as [| di df dis dfs' Hdf Hdfs' ]; subst.
  inversion Hdfs'; subst.
  split; [exact Hps |]. exists df. split; [exact Hdf | exact Hpsd].
Defined.

(** ** Power spectrum *)

Lemma ps_scale_pos ns :
  Forall (fun n => n <> 0%nat) ns -> 0 < ps_scale ns.
Proof.
  unfold ps_scale. induction 1 as [| n ns Hn _ IH]; simpl; [lra |].
  apply Rmult_lt_0_compat; [| exact IH].
  assert (0 < INR n) by (apply lt_0_INR; lia).
  apply Rdiv_lt_0_compat; [lra | nra].
Qed.

Lemma compute_norm_factor_ps_positive spec nfft dim tapering lg out :
  _compute_norm_factor spec nfft dim tapering = (lg, inr out) ->
  ps_factor (da_attrs spec) = None ->
  da_data out = da_data spec /\
  exists f, ps_factor (da_attrs out) = Some f /\ 0 < f.
Proof.
  intros H Hnone. unfold _compute_norm_factor in H.
  apply bind_returns in H as (l1 & fs & l2 & Hloop & H & ->).
  unfold ret in H. inversion H; subst; clear H. simpl.
  split; [reflexivity |].
  apply norm_loop_returns in Hloop as (ns & dfs & Hns & _ & Hps & _).
  exists (fst fs). split; [reflexivity |].
  rewrite Hps, Hnone, Rmult_1_l. apply ps_scale_pos.
  clear - Hns. induction Hns as [| di n dim ns [_ Hn] _ IH]; constructor; auto.
Qed.

Section PowerFacts.

Variable get_dx : DataArray -> string -> M R.
Variables NfftArg DimArg DxArg : Type.
Variable infer_n_and_dims :
  DataArray -> NfftArg -> DimArg -> M (list nat * list string).
Variable infer_arg_nfft : list nat -> DimArg -> M (dict nat).
Variable infer_arg_dx : DxArg -> DimArg -> M (dict (option R)).
Variable format_dim : DimArg -> M string.

(** C7.  Every element of the array that [ps] returns is real and
    non-negative: it is [|X|^2] times the positive factor [prod 1/nfft^2].
    This holds for every input, real-valued ones in particular. *)
Theorem ps_is_real_and_nonnegative :
  forall array nfft dim dx detrend tapering shift lg out,
    ps get_dx infer_n_and_dims infer_arg_nfft infer_arg_dx format_dim
       array nfft dim dx detrend tapering shift = (lg, inr out) ->
    nd_dtype (da_data out) = float64 /\
    forall idx,
      im (nd_at (da_data out) idx) = 0 /\ 0 <= re (nd_at (da_data out) idx).
Proof.
  intros array nfft dim dx detrend tapering shift lg out H. unfold ps in H.
  apply bind_returns in H as (l1 & spec & l2 & Hfft & H & ->).
  apply bind_returns in H as (l3 & factor & l4 & Hfac & H & ->).
  apply of_option_returns in Hfac as [Hfac ->].
  apply bind_returns in H as (l5 & d & l6 & _ & H & ->).
  unfold ret in H. inversion H; subst; clear H.
  unfold fft in Hfft.
  apply bind_returns in Hfft as (l7 & [temp new_dim] & l8 & _ & Hfft & ->).
  apply bind_returns in Hfft as (l9 & new_nfft & l10 & _ & Hfft & ->).
  apply bind_returns in Hfft as (l11 & new_dx & l12 & _ & Hfft & ->).
  unfold fft_resolved in Hfft.
  apply bind_returns in Hfft as (l13 & p & l14 & _ & Hfft & ->).
  apply bind_returns in Hfft as (l15 & p' & l16 & _ & Hfft & ->).
  apply bind_returns in Hfft as (l17 & [[sa sc] sd] & l18 & _ & Hfft & ->).
  apply bind_returns in Hfft as (l19 & spec0 & l20 & Hspec & Hfft & ->).
  apply compute_norm_factor_ps_positive in Hfft as [_ (f & Hf & Hpos)].
  - rewrite Hf in Hfac. injection Hfac as <-.
    simpl. split; [reflexivity |]. intros idx. split; [reflexivity |].
    destruct (nd_at (da_data spec) idx) as [x y]. simpl.
    apply Rmult_le_pos; [| lra]. nra.
  - unfold xr_DataArray in Hspec.
    destruct (_ && _) in Hspec; unfold ret, raise in Hspec;
      inversion Hspec; reflexivity.
Qed.

End PowerFacts.

(** The power spectrum of the series [0..7] along [t]. *)
Lemma ps_is_real_and_nonnegative_witness :
  exists out,
    outcome (ps spacing_get_dx listed_infer_n_and_dims listed_infer_arg_nfft
                listed_infer_arg_dx listed_format_dim ramp8 tt ["t"] None
                DetrendNone false true) = inr out /\
    nd_dtype (da_data out) = float64 /\
    forall k, 0 <= re (nd_at (da_data out) [k]).
Proof.
  eexists. split; [reflexivity |].
  destruct (ps_is_real_and_nonnegative spacing_get_dx
              unit (list string) (option R)
              listed_infer_n_and_dims listed_infer_arg_nfft
              listed_infer_arg_dx listed_format_dim
              ramp8 tt ["t"] None DetrendNone false true _ _ eq_refl)
    as [Hdtype Hall].
  split; [exact Hdtype |]. intros k. exact (proj2 (Hall [k])).
Defined.

(** ** Unsupported options *)

Section UnsupportedFacts.

Variable get_dx : DataArray -> string -> M R.
Variables NfftArg DimArg DxArg : Type.
Variable infer_n_and_dims :
  DataArray -> NfftArg -> DimArg -> M (list nat * list string).
Variable infer_arg_nfft : list nat -> DimArg -> M (dict nat).
Variable infer_arg_dx : DxArg -> DimArg -> M (dict (option R)).
Variable format_dim : DimArg -> M string.

(** What the body of [fft] does under [detrend='linear'] or
    [tapering=True]. *)
Lemma fft_resolved_unsupported array nfft dim dx detrend tapering shift :
  detrend = Linear \/ tapering = true ->
  fft_resolved get_dx array nfft dim dx detrend tapering shift
  = match detrend with
    | Linear =>
        ([], inl (NotImplementedError
                    "The linear detrending option is not implemented yet."))
    | Zeromean =>
        if forallb (fun di => mem di (da_dims array)) dim
        then ([CallLoad],
              inl (NotImplementedError
                     "The tapering option is not implemented yet."))
        else ([], inl ValueError)
    | DetrendNone | OtherStr _ =>
        ([], inl (NotImplementedError
                    "The tapering option is not implemented yet."))
    end.
Proof.
  intros [-> | ->]; [reflexivity |].
  unfold fft_resolved, da_mean. destruct detrend; try reflexivity.
  destruct (forallb _ dim); reflexivity.
Qed.

Lemma bind_never_returns {A B} (m : M A) (f : A -> M B) :
  (forall a b, outcome (f a) <> inr b) ->
  forall b, outcome (bind m f) <> inr b.
Proof.
  intros H b. unfold bind. destruct m as [l [e | a]]; [discriminate |].
  specialize (H a b). destruct (f a). exact H.
Qed.

Lemma bind_left_never_returns {A B} (m : M A) (f : A -> M B) :
  (forall a, outcome m <> inr a) -> forall b, outcome (bind m f) <> inr b.
Proof.
  intros H b. unfold bind. destruct m as [l [e | a]]; [discriminate |].
  now specialize (H a).
Qed.

(** C6.  [fft] rejects the unsupported options, but it recognises
    [detrend='linear'] by the identity of the string object, not by its
    content.  With the literal ['linear'] or with [tapering=True], [fft],
    [ps] and [psd] return nothing and the body of [fft] requests no
    transform.  A string that is not that object is treated as no
    detrending at all, whatever it spells: [fft], [ps] and [psd] do what
    they do with [detrend=None], and for the series [0..7] a string equal
    to ['linear'] yields the spectrum over [f_t] after a real transform,
    where an exception was due. *)
Theorem linear_detrend_is_rejected_by_identity_only :
  (forall array nfft dim dx tapering shift out,
      outcome (fft get_dx infer_n_and_dims infer_arg_nfft infer_arg_dx
                   array nfft dim dx Linear tapering shift) <> inr out /\
      outcome (ps get_dx infer_n_and_dims infer_arg_nfft infer_arg_dx
                  format_dim array nfft dim dx Linear tapering shift)
      <> inr out /\
      outcome (psd get_dx infer_n_and_dims infer_arg_nfft infer_arg_dx
                   format_dim array nfft dim dx Linear tapering shift)
      <> inr out) /\
  (forall array nfft dim dx detrend shift out,
      outcome (fft get_dx infer_n_and_dims infer_arg_nfft infer_arg_dx
                   array nfft dim dx detrend true shift) <> inr out /\
      outcome (ps get_dx infer_n_and_dims infer_arg_nfft infer_arg_dx
                  format_dim array nfft dim dx detrend true shift)
      <> inr out /\
      outcome (psd get_dx infer_n_and_dims infer_arg_nfft infer_arg_dx
                   format_dim array nfft dim dx detrend true shift)
      <> inr out) /\
  (forall array new_nfft new_dim new_dx detrend tapering shift,
      transforms (log (fft_resolved get_dx array new_nfft new_dim new_dx
                                    Linear tapering shift)) = [] /\
      transforms (log (fft_resolved get_dx array new_nfft new_dim new_dx
                                    detrend true shift)) = []) /\
  (forall array nfft dim dx s tapering shift,
      fft get_dx infer_n_and_dims infer_arg_nfft infer_arg_dx
          array nfft dim dx (OtherStr s) tapering shift
      = fft get_dx infer_n_and_dims infer_arg_nfft infer_arg_dx
            array nfft dim dx DetrendNone tapering shift /\
      ps get_dx infer_n_and_dims infer_arg_nfft infer_arg_dx format_dim
         array nfft dim dx (OtherStr s) tapering shift
      = ps get_dx infer_n_and_dims infer_arg_nfft infer_arg_dx format_dim
           array nfft dim dx DetrendNone tapering shift /\
      psd get_dx infer_n_and_dims infer_arg_nfft infer_arg_dx format_dim
          array nfft dim dx (OtherStr s) tapering shift
      = psd get_dx infer_n_and_dims infer_arg_nfft infer_arg_dx format_dim
            array nfft dim dx DetrendNone tapering shift) /\
  (exists out,
      fft spacing_get_dx listed_infer_n_and_dims listed_infer_arg_nfft
          listed_infer_arg_dx ramp8 tt ["t"%string] (Some 1)
          (OtherStr "linear") false false
      = ([CallRfft 0], inr out) /\
      da_dims out = ["f_t"%string] /\
      da_data out = da_rfft (da_data ramp8) 0 /\
      da_coords out = [("f_t"%string, Num (rfftfreq 8 1))]) /\
  fft spacing_get_dx listed_infer_n_and_dims listed_infer_arg_nfft
      listed_infer_arg_dx ramp8 tt ["t"%string] (Some 1) Linear false false
  = ([], inl (NotImplementedError
                "The linear detrending option is not implemented yet.")).
Proof.
  assert (Hbody : forall array n d x detrend tapering shift out,
             detrend = Linear \/ tapering = true ->
             outcome (fft_resolved get_dx array n d x detrend tapering shift)
             <> inr out).
  { intros array n d x detrend tapering shift out Hopt.
    rewrite fft_resolved_unsupported by assumption.
    destruct detrend; try discriminate.
    destruct (forallb _ d); discriminate. }
  assert (Hfft : forall array nfft dim dx detrend tapering shift out,
             detrend = Linear \/ tapering = true ->
             outcome (fft get_dx infer_n_and_dims infer_arg_nfft infer_arg_dx
                          array nfft dim dx detrend tapering shift)
             <> inr out).
  { intros array nfft dim dx detrend tapering shift out Hopt. revert out.
    unfold fft. apply bind_never_returns. intros [temp new_dim].
    apply bind_never_returns. intros new_nfft.
    apply bind_never_returns. intros new_dx out. now apply Hbody. }
  assert (Hall : forall array nfft dim dx detrend tapering shift out,
             detrend = Linear \/ tapering = true ->
             outcome (fft get_dx infer_n_and_dims infer_arg_nfft infer_arg_dx
                          array nfft dim dx detrend tapering shift)
             <> inr out /\
             outcome (ps get_dx infer_n_and_dims infer_arg_nfft infer_arg_dx
                         format_dim array nfft dim dx detrend tapering shift)
             <> inr out /\
             outcome (psd get_dx infer_n_and_dims infer_arg_nfft infer_arg_dx
                          format_dim array nfft dim dx detrend tapering shift)
             <> inr out).
  { intros array nfft dim dx detrend tapering shift out Hopt.
    split; [now apply Hfft |].
    split; [unfold ps | unfold psd]; apply bind_left_never_returns;
      intros a; now apply Hfft. }
  assert (Hlog : forall array n d x detrend tapering shift,
             detrend = Linear \/ tapering = true ->
             transforms
               (log (fft_resolved get_dx array n d x detrend tapering shift))
             = []).
  { intros array n d x detrend tapering shift Hopt.
    rewrite fft_resolved_unsupported by assumption.
    destruct detrend; try reflexivity.
    destruct (forallb _ d); reflexivity. }
  split; [intros; apply Hall; now left |].
  split; [intros; apply Hall; now right |].
  split.
  { intros array n d x detrend tapering shift.
    split; apply Hlog; [now left | now right]. }
  split.
  { intros array nfft dim dx s tapering shift.
    assert (E : fft get_dx infer_n_and_dims infer_arg_nfft infer_arg_dx
                    array nfft dim dx (OtherStr s) tapering shift
                = fft get_dx infer_n_and_dims infer_arg_nfft infer_arg_dx
                      array nfft dim dx DetrendNone tapering shift)
      by reflexivity.
    split; [exact E |]. split; [unfold ps | unfold psd]; now rewrite E. }
  split; [| reflexivity].
  eexists. split; [reflexivity |].
  split; [reflexivity |]. split; reflexivity.
Qed.

End UnsupportedFacts.

(** ** Requested dimensions that the array does not have *)

Lemma init_coords_key array dim k c :
  dict_get (init_coords array dim) k = Some c -> In k (da_dims array).
Proof.
  unfold init_coords.
  assert (H : forall dims acc,
             dict_get
               (fold_left
                  (fun coords di =>
                     if mem di dim then coords
                     else dict_set coords di (da_coord array di))
                  dims acc) k = Some c ->
             (exists c', dict_get acc k = Some c') \/ In k dims).
  { induction dims as [| d dims IH]; intros acc H; simpl in *.
    - left. now exists c.
    - apply IH in H as [[c' H] | H]; [| now right; right].
      destruct (mem d dim); [left; now exists c' |].
      destruct (string_dec d k) as [-> | Hne]; [right; now left |].
      rewrite dict_get_set_other in H by assumption. left. now exists c'. }
  intros Hk. apply H in Hk as [[c' Hk] | Hk]; [discriminate | assumption].
Qed.

Lemma init_dims_member array dim k :
  In k (init_dims array dim) ->
  In k (da_dims array) \/
  exists d, In d (da_dims array) /\ k = ("f_" ++ d)%string.
Proof.
  unfold init_dims. intros H. apply in_map_iff in H as (d & Hk & Hd).
  destruct (mem d dim); subst; [right; now exists d | now left].
Qed.

Lemma Forall2_In_left {A B} (P : A -> B -> Prop) l l' a :
  Forall2 P l l' -> In a l -> exists b, P a b.
Proof.
  induction 1 as [| x y l l' Hxy _ IH]; intros Hin; [destruct Hin |].
  destruct Hin as [<- | Hin]; [now exists y | auto].
Qed.

Section AbsentFacts.

Variable get_dx : DataArray -> string -> M R.

Lemma fft_loop_other_keys array nfft shift dim : forall st lg st',
  fft_loop get_dx array nfft shift dim st = (lg, inr st') ->
  forall k,
    (forall di, In di (present array dim) -> k <> ("f_" ++ di)%string) ->
    dict_get (spectrum_coords st') k = dict_get (spectrum_coords st) k.
Proof.
  induction dim as [| di rest IH]; intros st lg st' H k Hk.
  - simpl in H. unfold ret in H. now inversion H.
  - simpl in H. apply bind_returns in H as (l1 & st1 & l2 & Hstep & Hloop & ->).
    unfold present in Hk. simpl in Hk. fold (present array rest) in Hk.
    destruct (mem di (da_dims array)) eqn:Hmem.
    + apply fft_step_present in Hstep as (n & d & lg0 & _ & _ & Hst);
        [| assumption].
      cbv zeta in Hst.
      rewrite (IH _ _ _ Hloop k) by (intros; apply Hk; now right).
      assert (Hne : ("f_" ++ di)%string <> k)
        by (intros E; now apply (Hk di); [left |]).
      destruct (first st && negb (iscomplexobj (spectrum_array st)));
        destruct Hst as [_ ->]; simpl; now apply dict_get_set_other.
    + rewrite fft_step_absent in Hstep by assumption.
      inversion Hstep; subst. now apply (IH _ _ _ Hloop).
Qed.

(** X18.  A name that reaches the body of [fft] in [new_dim] without being
    a dimension of the array stops the call: [_fft] skips it with a
    warning, but [_compute_norm_factor] goes through the same names and
    looks up the frequency coordinate of the skipped one, which does not
    exist. *)
Theorem absent_name_in_new_dim_stops_the_body :
  forall array nfft dim dx detrend tapering shift di,
    In di dim ->
    mem di (da_dims array) = false ->
    mem ("f_" ++ di) (da_dims array) = false ->
    forall out,
      outcome (fft_resolved get_dx array nfft dim dx detrend tapering shift)
      <> inr out.
Proof.
  intros array nfft dim dx detrend tapering shift di Hin Habs Hfabs out H.
  destruct (fft_resolved get_dx array nfft dim dx detrend tapering shift)
    as [lg r] eqn:E.
  simpl in H. subst r. unfold fft_resolved in E.
  apply bind_returns in E as (l1 & p & l2 & Hp & E & ->).
  assert (Hdims : da_dims p = da_dims array).
  { destruct detrend.
    - unfold ret in Hp. now inversion Hp.
    - apply bind_returns in Hp as (l3 & m & l4 & _ & Hp & _).
      unfold bind, tell, ret in Hp. simpl in Hp. now inversion Hp.
    - discriminate.
    - unfold ret in Hp. now inversion Hp. }
  apply bind_returns in E as (l3 & p' & l4 & Hp' & E & ->).
  destruct tapering; [discriminate |].
  unfold ret in Hp'. inversion Hp'; subst p' l3; clear Hp'.
  apply bind_returns in E as (l5 & [[sa sc] sd] & l6 & Hfft & E & ->).
  apply bind_returns in E as (l7 & spec & l8 & Hspec & E & ->).
  unfold _fft in Hfft.
  apply bind_returns in Hfft as (l9 & st & l10 & Hloop & Hret & ->).
  unfold ret in Hret. inversion Hret; subst; clear Hret.
  unfold xr_DataArray in Hspec.
  destruct (_ && _) in Hspec; [| discriminate].
  unfold ret in Hspec. inversion Hspec; subst; clear Hspec.
  unfold _compute_norm_factor in E.
  apply bind_returns in E as (l11 & fs & l12 & Hnorm & _ & _).
  apply norm_loop_returns in Hnorm as (ns & dfs & _ & Hdfs & _).
  destruct (Forall2_In_left _ _ _ _ Hdfs Hin) as [df Hdf].
  unfold bin_spacing, da_getitem in Hdf. simpl in Hdf.
  assert (Hcoord : dict_get (spectrum_coords st) (String "f" (String "_" di))
                   = None).
  { rewrite (fft_loop_other_keys _ _ _ _ _ _ _ Hloop).
    - simpl.
      destruct (dict_get (init_coords p dim) (String "f" (String "_" di)))
        eqn:Hk; [| reflexivity].
      apply init_coords_key in Hk. rewrite Hdims in Hk.
      apply mem_true_iff in Hk. simpl in Hfabs. congruence.
    - intros d Hd E. unfold present in Hd. apply filter_In in Hd as [_ Hd].
      apply (freq_name_inj di d) in E. subst d.
      rewrite Hdims in Hd. congruence. }
  rewrite Hcoord in Hdf.
  destruct (mem (String "f" (String "_" di)) (init_dims p dim)) eqn:Hm;
    [| discriminate].
  apply mem_true_iff in Hm.
  apply init_dims_member in Hm as [Hm | (d & Hd & Hm)]; rewrite Hdims in *.
  - apply mem_true_iff in Hm. simpl in Hfabs. congruence.
  - apply (freq_name_inj di d) in Hm. subst d.
    apply mem_true_iff in Hd. congruence.
Qed.

End AbsentFacts.

(** The body of [fft] over [t] and the absent [zz] of the series [0..7]:
    the real transform along [t], the warning, then [KeyError]. *)
Lemma absent_name_in_new_dim_stops_the_body_witness :
  fft_resolved spacing_get_dx ramp8 [("t", 8%nat); ("zz", 8%nat)]
               ["t"; "zz"] [("t", Some 1); ("zz", Some 1)]
               DetrendNone false false
  = ([CallRfft 0; Warn "Cannot find dimension zz in DataArray"],
     inl (KeyError "f_zz")) /\
  forall out,
    outcome (fft_resolved spacing_get_dx ramp8 [("t", 8%nat); ("zz", 8%nat)]
                          ["t"; "zz"] [("t", Some 1); ("zz", Some 1)]
                          DetrendNone false false) <> inr out.
Proof.
  split; [reflexivity |].
  apply (absent_name_in_new_dim_stops_the_body spacing_get_dx ramp8
           [("t", 8%nat); ("zz", 8%nat)] ["t"; "zz"]
           [("t", Some 1); ("zz", Some 1)] DetrendNone false false "zz").
  - right. now left.
  - reflexivity.
  - reflexivity.
Defined.

(** The outcome of the loop is the one over the dimensions that the array
    has; every other requested dimension adds the warning that names it. *)
Lemma outcome_bind_ext {A B} (m : M A) (f g : A -> M B) :
  (forall a, outcome (f a) = outcome (g a)) ->
  outcome (bind m f) = outcome (bind m g).
Proof.
  intros H. unfold bind. destruct m as [l [e | a]]; [reflexivity |].
  specialize (H a). destruct (f a), (g a). exact H.
Qed.

Lemma fft_loop_skips_absent get_dx array nfft shift dim : forall st,
  outcome (fft_loop get_dx array nfft shift dim st)
  = outcome (fft_loop get_dx array nfft shift (present array dim) st) /\
  forall di lg st',
    In di dim -> mem di (da_dims array) = false ->
    fft_loop get_dx array nfft shift dim st = (lg, inr st') ->
    In (Warn (missing_dimension di)) lg.
Proof.
  induction dim as [| d rest IH]; intros st.
  - split; [reflexivity | intros di lg st' []].
  - unfold present. simpl. fold (present array rest).
    destruct (mem d (da_dims array)) eqn:Hmem.
    + split.
      * simpl. apply outcome_bind_ext. intros st1. apply IH.
      * intros di lg st' [<- | Hin] Habs H; [congruence |].
        apply bind_returns in H as (l1 & st1 & l2 & _ & Hloop & ->).
        apply in_or_app. right.
        now apply (proj2 (IH st1) di l2 st').
    + rewrite fft_step_absent by assumption. split.
      * unfold bind at 1. simpl.
        destruct (fft_loop get_dx array nfft shift rest st) as [l r] eqn:E.
        simpl. rewrite <- (proj1 (IH st)). now rewrite E.
      * intros di lg st' Hin Habs H.
        unfold bind in H. simpl in H.
        destruct (fft_loop get_dx array nfft shift rest st) as [l r] eqn:E.
        inversion H; subst. destruct Hin as [<- | Hin]; [now left |].
        right. now apply (proj2 (IH st) di l st').
Qed.

(** ** The harmonic fit *)

Lemma insert_desc_perm x l : Permutation (x :: l) (insert_desc x l).
Proof.
  induction l as [| y l IH]; simpl; [reflexivity |].
  destruct (Rle_dec y x); [reflexivity |].
  rewrite perm_swap. now constructor.
Qed.

Lemma sort_reverse_perm l : Permutation l (sort_reverse l).
Proof.
  induction l as [| x l IH]; simpl; [constructor |].
  rewrite <- insert_desc_perm. now constructor.
Qed.

Lemma sort_reverse_length l : List.length (sort_reverse l) = List.length l.
Proof. symmetry. apply Permutation_length, sort_reverse_perm. Qed.

Lemma insert_desc_sorted x l :
  StronglySorted descending l -> StronglySorted descending (insert_desc x l).
Proof.
  induction 1 as [| y l Hs IH Hall]; simpl.
  - constructor; constructor.
  - destruct (Rle_dec y x) as [Hle | Hgt].
    + constructor; [now constructor |].
      constructor; [exact Hle |].
      eapply Forall_impl; [| exact Hall].
      unfold descending. intros z Hz. lra.
    + constructor; [exact IH |].
      apply (Permutation_Forall (insert_desc_perm x l)).
      constructor; [unfold descending; lra | exact Hall].
Qed.

Lemma sort_reverse_sorted l : StronglySorted descending (sort_reverse l).
Proof.
  induction l as [| x l IH]; simpl; [constructor |].
  now apply insert_desc_sorted.
Qed.

Lemma unit_seconds_pos u : 0 < unit_seconds u.
Proof. destruct u; simpl; try lra; apply Rinv_0_lt_compat; lra. Qed.

(** Positive periods in descending order give ascending frequencies. *)
Lemma frequencies_ascending u l :
  0 < u ->
  Forall (fun p => 0 < p) l ->
  StronglySorted descending l ->
  StronglySorted Rle (map (fun p => 1 / (p * u)) l).
Proof.
  intros Hu Hpos Hs. induction Hs as [| p l Hs IH Hall]; simpl.
  - constructor.
  - inversion Hpos as [| ? ? Hp Hposl]; subst.
    constructor; [now apply IH |].
    apply Forall_map. apply Forall_forall. intros q Hq.
    assert (Hqp : q <= p) by (rewrite Forall_forall in Hall; now apply Hall).
    assert (Hq0 : 0 < q) by (rewrite Forall_forall in Hposl; now apply Hposl).
    unfold Rdiv. rewrite !Rmult_1_l.
    apply Rinv_le_contravar; [now apply Rmult_lt_0_compat |].
    apply Rmult_le_compat_r; lra.
Qed.

Lemma odd_half k : ((2 * k + 1) / 2 = k)%nat.
Proof.
  replace (2 * k + 1)%nat with (1 + k * 2)%nat by lia.
  rewrite Nat.div_add by lia. reflexivity.
Qed.

Lemma design_matrix_layout freqs t :
  let k := List.length freqs in
  List.length (design_matrix freqs t) = (2 * k + 1)%nat /\
  firstn k (design_matrix freqs t)
  = map (fun f => map (fun ti => cos (2 * PI * f * ti)) t) (rev freqs) /\
  nth k (design_matrix freqs t) [] = map (fun _ => 1) t /\
  skipn (k + 1) (design_matrix freqs t)
  = map (fun f => map (fun ti => sin (2 * PI * f * ti)) t) freqs.
Proof.
  intros k. unfold design_matrix.
  set (cs := map (fun f => map (fun ti => cos (2 * PI * f * ti)) t)
                 (rev freqs)).
  set (sn := map (fun f => map (fun ti => sin (2 * PI * f * ti)) t) freqs).
  assert (Hcs : List.length cs = k)
    by (unfold cs; now rewrite length_map, length_rev).
  assert (Hsn : List.length sn = k) by (unfold sn; now rewrite length_map).
  split; [rewrite !length_app, Hcs, Hsn; simpl; lia |].
  split.
  { rewrite firstn_app, Hcs, Nat.sub_diag. simpl.
    rewrite <- Hcs, firstn_all. apply app_nil_r. }
  split.
  { rewrite app_nth2 by lia. rewrite Hcs, Nat.sub_diag. reflexivity. }
  rewrite skipn_app, Hcs.
  rewrite skipn_all2 by lia.
  replace (k + 1 - k)%nat with 1%nat by lia. reflexivity.
Qed.

Section FitFacts.

Variable lstsq : list (list R) -> list R -> list R.

(** What a call that reaches the design matrix went through. *)
Lemma sinfit_system_returns h array periods dim coord unit h' lg sorted x ys :
  sinfit_system h array periods dim coord unit
  = (h', (lg, inr (sorted, x, ys))) ->
  exists d ticks,
    sorted = sort_reverse (match periods with
                           | PScalar p => [p]
                           | PList l => h l
                           end) /\
    x = design_matrix
          (map (fun p => 1 / (p * unit_seconds unit)) sorted)
          (map (fun x => IZR x * / 1000000000) ticks) /\
    ys = _order_and_stack array d /\
    match coord with
    | Some c => c = Datetime64 ticks
    | None => outcome (da_getitem array d) = inr (Datetime64 ticks)
    end.
Proof.
  unfold sinfit_system.
  destruct (match dim with Some d => Some d | None => _ end) as [d |];
    [| discriminate].
  intros H. inversion H as [[Hh Hsys]]. clear H Hh.
  destruct (negb (mem d (da_dims array))); [discriminate |].
  apply bind_returns in Hsys as (l1 & c & l2 & Hc & Hsys & ->).
  apply bind_returns in Hsys as (l3 & [t freqs] & l4 & Hr & Hsys & ->).
  unfold ret in Hsys. inversion Hsys; subst; clear Hsys.
  destruct c as [nums | ticks]; [discriminate |].
  unfold ret in Hr. inversion Hr; subst; clear Hr.
  exists d, ticks. repeat split.
  destruct coord as [c |].
  - unfold ret in Hc. now inversion Hc.
  - now rewrite Hc.
Qed.

(** The same, with the dimension of the fit. *)
Lemma sinfit_system_inv h array periods dim coord unit h' lg sorted x ys :
  sinfit_system h array periods dim coord unit
  = (h', (lg, inr (sorted, x, ys))) ->
  exists d ticks,
    match dim with
    | Some d => Some d
    | None => nth_error (da_dims array) 0
    end = Some d /\
    match coord with
    | Some c => c = Datetime64 ticks
    | None => outcome (da_getitem array d) = inr (Datetime64 ticks)
    end /\
    sorted = sort_reverse (match periods with
                           | PScalar p => [p]
                           | PList l => h l
                           end) /\
    x = design_matrix
          (map (fun p => 1 / (p * unit_seconds unit)) sorted)
          (map (fun x => IZR x * / 1000000000) ticks).
Proof.
  unfold sinfit_system.
  destruct (match dim with Some d => Some d | None => _ end) as [d |];
    [| discriminate].
  intros H. inversion H as [[Hh Hsys]]. clear H Hh.
  destruct (negb (mem d (da_dims array))); [discriminate |].
  apply bind_returns in Hsys as (l1 & c & l2 & Hc & Hsys & ->).
  apply bind_returns in Hsys as (l3 & [t freqs] & l4 & Hr & Hsys & ->).
  unfold ret in Hsys. inversion Hsys; subst; clear Hsys.
  destruct c as [nums | ticks]; [discriminate |].
  unfold ret in Hr. inversion Hr; subst; clear Hr.
  exists d, ticks. split; [reflexivity |]. split; [| split; reflexivity].
  destruct coord as [c |].
  - unfold ret in Hc. now inversion Hc.
  - now rewrite Hc.
Qed.

(** C3.  In a call of [sinfit] with [k] periods that reaches the design
    matrix, the matrix is built over the times [t] of the fit, the ticks of
    the [datetime64] coordinate (the one passed as [coord], or the one of
    the dimension of the fit) in seconds, one row per tick.  It has [2k+1]
    columns: first the cosines of the [k] frequencies in the reverse of
    their ascending order (descending, the lowest frequency next to the
    constant), then the column of ones, then the sines in ascending order.
    From the solution [c], [b] is [c[0:k]] reversed, [a] is [c[k+1:]], the
    offset is [c[k]], the amplitude is [sqrt(a^2 + b^2)] and the phase
    [arctan2(b, a) * 180 / pi]. *)
Theorem sinfit_design_matrix_and_decomposition :
  forall h array periods dim coord unit h' lg sorted x ys,
    sinfit_system h array periods dim coord unit
    = (h', (lg, inr (sorted, x, ys))) ->
    let plist := match periods with PScalar p => [p] | PList l => h l end in
    let k := List.length plist in
    exists d ticks freqs,
      let t := map (fun x => IZR x * / 1000000000) ticks in
      match dim with
      | Some d => Some d
      | None => nth_error (da_dims array) 0
      end = Some d /\
      match coord with
      | Some c => c = Datetime64 ticks
      | None => outcome (da_getitem array d) = inr (Datetime64 ticks)
      end /\
      Permutation plist sorted /\
      StronglySorted descending sorted /\
      freqs = map (fun p => 1 / (p * unit_seconds unit)) sorted /\
      (Forall (fun p => 0 < p) plist -> StronglySorted Rle freqs) /\
      List.length x = (2 * k + 1)%nat /\
      Forall (fun col => List.length col = List.length ticks) x /\
      firstn k x
      = map (fun f => map (fun ti => cos (2 * PI * f * ti)) t) (rev freqs) /\
      nth k x [] = map (fun _ => 1) t /\
      skipn (k + 1) x
      = map (fun f => map (fun ti => sin (2 * PI * f * ti)) t) freqs /\
      exists modes,
        sinfit lstsq h array periods dim coord unit = (h', (lg, inr modes)) /\
        periods_coord modes = sorted /\
        forall bidx,
          let c := lstsq x (sk_col ys bidx) in
          let b := rev (firstn k c) in
          let a := skipn (k + 1) c in
          offset modes bidx = nth k c 0 /\
          amplitude modes bidx
          = zip_with (fun a b => sqrt (a ^ 2 + b ^ 2)) a b /\
          phase modes bidx
          = zip_with (fun a b => arctan2 b a * 180 / PI) a b /\
          (List.length c = (2 * k + 1)%nat ->
           List.length a = k /\ List.length b = k).
Proof.
  intros h array periods dim coord unit h' lg sorted x ys H plist k.
  pose proof H as H0.
  apply sinfit_system_inv in H as (d & ticks & Hdim & Hcoord & Hsorted & Hx).
  fold plist in Hsorted.
  assert (Hlen : List.length sorted = k)
    by (subst sorted; apply sort_reverse_length).
  set (freqs := map (fun p => 1 / (p * unit_seconds unit)) sorted) in *.
  assert (Hfl : List.length freqs = k) by (unfold freqs; now rewrite length_map).
  exists d, ticks, freqs. intros t. unfold t. clear t.
  destruct (design_matrix_layout freqs
              (map (fun x => IZR x * / 1000000000) ticks))
    as (Hl & Hcos & Hone & Hsin).
  rewrite Hfl in Hl, Hcos, Hone, Hsin. rewrite <- Hx in Hl, Hcos, Hone, Hsin.
  split; [exact Hdim |].
  split; [exact Hcoord |].
  split; [subst sorted; apply sort_reverse_perm |].
  split; [subst sorted; apply sort_reverse_sorted |].
  split; [reflexivity |].
  split.
  { intros Hpos. apply frequencies_ascending.
    - apply unit_seconds_pos.
    - subst sorted.
      apply (Permutation_Forall (sort_reverse_perm plist) Hpos).
    - subst sorted. apply sort_reverse_sorted. }
  split; [assumption |].
  split.
  { rewrite Hx. unfold design_matrix. rewrite !Forall_app. repeat split.
    - apply Forall_forall. intros col Hcol.
      apply in_map_iff in Hcol as (f & <- & _). now rewrite !length_map.
    - constructor; [now rewrite !length_map | constructor].
    - apply Forall_forall. intros col Hcol.
      apply in_map_iff in Hcol as (f & <- & _). now rewrite !length_map. }
  repeat (split; [assumption |]).
  exists (sinfit_modes lstsq sorted x ys unit).
  split.
  { unfold sinfit. rewrite H0. unfold bind, ret. now rewrite app_nil_r. }
  split; [reflexivity |].
  intros bidx. cbv zeta. unfold sinfit_modes.
  cbn [offset amplitude phase]. rewrite Hlen, odd_half.
  repeat split.
  - rewrite length_skipn. lia.
  - rewrite length_rev, length_firstn. lia.
Qed.

(** C8.  [sinfit] sorts the list object that the caller passes as
    [periods] in place: after the call the caller's list holds its periods
    in descending order.  The caller's [[12., 24.]] is [[24., 12.]] after
    fitting the hourly series. *)
Theorem sinfit_sorts_the_callers_periods :
  (forall h array l dim coord unit d,
      match dim with
      | Some d => Some d
      | None => nth_error (da_dims array) 0
      end = Some d ->
      fst (sinfit lstsq h array (PList l) dim coord unit) l
      = sort_reverse (h l)) /\
  fst (sinfit lstsq callers_store hourly_datetime (PList 0) None None UnitH)
      0%nat = [24; 12] /\
  fst (sinfit lstsq callers_store hourly_datetime (PList 0) None None UnitH)
      0%nat <> callers_store 0%nat.
Proof.
  assert (E : sort_reverse [12; 24] = [24; 12]).
  { unfold sort_reverse. simpl.
    destruct (Rle_dec 24 12) as [Hle | _]; [lra | reflexivity]. }
  assert (G : forall h array l dim coord unit d,
             match dim with
             | Some d => Some d
             | None => nth_error (da_dims array) 0
             end = Some d ->
             fst (sinfit lstsq h array (PList l) dim coord unit) l
             = sort_reverse (h l)).
  { intros h array l dim coord unit d Hd. unfold sinfit, sinfit_system.
    rewrite Hd. cbn [fst]. unfold heap_set. now rewrite Nat.eqb_refl. }
  split; [exact G |]. split.
  - rewrite (G callers_store hourly_datetime 0%nat None None UnitH
                "time"%string eq_refl).
    exact E.
  - rewrite (G callers_store hourly_datetime 0%nat None None UnitH
                "time"%string eq_refl).
    unfold callers_store.
    rewrite E. intros H. inversion H. lra.
Qed.

(** C4.  Over a coordinate of plain numbers [sinfit] does not fit anything:
    with [periods] a list, [freqs = 1. / periods] raises [TypeError], so
    there are no modes for [sinval] to evaluate.  The series
    [2 sin(2 pi t/24) + sin(2 pi t/12) + 5] at [t = 0 .. 239] with
    [periods = [24, 12]] raises. *)
Theorem sinfit_raises_on_numeric_coordinate :
  (forall h array periods dim t unit modes,
      outcome (snd (sinfit lstsq h array periods dim (Some (Num t)) unit))
      <> inr modes) /\
  (forall h array periods d t unit,
      mem d (da_dims array) = true ->
      dict_get (da_coords array) d = Some (Num t) ->
      snd (sinfit lstsq h array periods (Some d) None unit)
      = ([], inl TypeError)) /\
  snd (sinfit lstsq (fun _ => [24; 12]) hourly (PList 0) None None UnitS)
  = ([], inl TypeError).
Proof.
  split; [| split].
  - intros h array periods dim t unit modes.
    unfold sinfit, sinfit_system.
    destruct (match dim with Some d => Some d | None => _ end) as [d |];
      [| discriminate].
    simpl. destruct (negb (mem d (da_dims array))); discriminate.
  - intros h array periods d t unit Hmem Hc.
    unfold sinfit, sinfit_system, da_getitem. simpl.
    rewrite Hmem, Hc. reflexivity.
  - reflexivity.
Qed.

End FitFacts.

(** The hourly series over its [datetime64] coordinate, with the periods
    24 h and 12 h given as the caller's list: five columns over the 240
    hourly ticks, the third one of ones. *)
Lemma sinfit_design_matrix_and_decomposition_witness :
  exists h' lg sorted x ys modes,
    sinfit_system callers_store hourly_datetime (PList 0) None None UnitH
    = (h', (lg, inr (sorted, x, ys))) /\
    List.length x = 5%nat /\
    Forall (fun col => List.length col = 240%nat) x /\
    nth 2 x []
    = map (fun _ => 1)
          (map (fun x => IZR x * / 1000000000)
               (map (fun i => (Z.of_nat i * 3600000000000)%Z) (seq 0 240))) /\
    snd (sinfit zero_lstsq callers_store hourly_datetime (PList 0) None None
                UnitH) = (lg, inr modes) /\
    periods_coord modes = sorted.
Proof.
  do 5 eexists.
  destruct (sinfit_design_matrix_and_decomposition zero_lstsq
              callers_store hourly_datetime (PList 0) None None UnitH
              _ _ _ _ _ eq_refl)
    as (d & ticks & freqs & Hd & Hc & _ & _ & _ & _ & Hlen & Hrows & _ & Hone
        & _ & modes & Hfit & Hp & _).
  injection Hd as <-. injection Hc as <-.
  exists modes. split; [reflexivity |].
  split; [exact Hlen |].
  split; [exact Hrows |].
  split; [exact Hone |].
  split; [now rewrite Hfit | exact Hp].
Defined.

(* ================================================================== *)
(** * Further properties *)
(* ================================================================== *)

(** ** [_fftshift] and [_ifftshift] *)

Lemma half_down_plus_up n : (n - (n + 1) / 2 + (n + 1) / 2 = n)%nat.
Proof. pose proof (half_up_le n). lia. Qed.

Lemma ishift_indices_length n : List.length (ishift_indices n) = n.
Proof.
  unfold ishift_indices. rewrite length_app, !length_seq. lia.
Qed.

Lemma ishift_indices_nth n i :
  (i < n)%nat ->
  nth i (ishift_indices n) 0%nat = ((i + (n - (n + 1) / 2)) mod n)%nat.
Proof.
  intros Hi. unfold ishift_indices.
  set (p2 := (n - (n + 1) / 2)%nat).
  assert (Hp : (p2 <= n)%nat) by (unfold p2; lia).
  destruct (Nat.lt_ge_cases i (n - p2)) as [Hlt | Hge].
  - rewrite app_nth1 by (rewrite length_seq; lia).
    rewrite seq_nth by lia. rewrite Nat.mod_small by lia. lia.
  - rewrite app_nth2 by (rewrite length_seq; lia).
    rewrite length_seq, seq_nth by lia.
    apply Nat.mod_unique with (q := 1%nat); lia.
Qed.

Lemma shift_after_ishift n i :
  (i < n)%nat ->
  nth (nth i (ishift_indices n) 0%nat) (shift_indices n) 0%nat = i.
Proof.
  intros Hi. rewrite ishift_indices_nth by assumption.
  rewrite shift_indices_nth by (apply Nat.mod_upper_bound; lia).
  rewrite Nat.Div0.add_mod_idemp_l.
  rewrite <- Nat.add_assoc, half_down_plus_up.
  symmetry. apply Nat.mod_unique with (q := 1%nat); lia.
Qed.

Lemma ishift_after_shift n i :
  (i < n)%nat ->
  nth (nth i (shift_indices n) 0%nat) (ishift_indices n) 0%nat = i.
Proof.
  intros Hi. rewrite shift_indices_nth by assumption.
  rewrite ishift_indices_nth by (apply Nat.mod_upper_bound; lia).
  rewrite Nat.Div0.add_mod_idemp_l.
  rewrite <- Nat.add_assoc, (Nat.add_comm ((n + 1) / 2)), half_down_plus_up.
  symmetry. apply Nat.mod_unique with (q := 1%nat); lia.
Qed.

Lemma replace_at_twice {A} k (v w : A) l :
  replace_at k v (replace_at k w l) = replace_at k v l.
Proof.
  revert k. induction l as [| x l IH]; intros [| k]; simpl; auto.
  now rewrite IH.
Qed.

Lemma take_take_inverse x k (l1 l2 : list nat) idx :
  let n := nth k (nd_shape x) 0%nat in
  List.length l1 = n ->
  (k < List.length (nd_shape x))%nat ->
  (k < List.length idx)%nat ->
  (nth k idx 0 < n)%nat ->
  (forall i, (i < n)%nat -> nth (nth i l2 0%nat) l1 0%nat = i) ->
  nd_at (da_take (da_take x l1 k) l2 k) idx = nd_at x idx.
Proof.
  intros n Hl1 Hk Hidx Hi Hinv. simpl.
  rewrite nth_replace_at_same by assumption.
  rewrite replace_at_twice, Hinv by assumption.
  now rewrite replace_at_nth.
Qed.

(** X1.  Along one axis [_ifftshift] undoes [_fftshift] and [_fftshift]
    undoes [_ifftshift]: the shape is the original one and so is every
    entry at an index inside the array. *)
Theorem ifftshift_inverts_fftshift :
  forall x k,
    (k < List.length (nd_shape x))%nat ->
    (exists y, _ifftshift (_fftshift x (AxesInt k)) (AxesInt k) = Some y /\
               nd_shape y = nd_shape x /\ nd_dtype y = nd_dtype x /\
               forall idx, (k < List.length idx)%nat ->
                           (nth k idx 0 < nth k (nd_shape x) 0)%nat ->
                           nd_at y idx = nd_at x idx) /\
    (exists y, _ifftshift x (AxesInt k) = Some y /\
               nd_shape (_fftshift y (AxesInt k)) = nd_shape x /\
               forall idx, (k < List.length idx)%nat ->
                           (nth k idx 0 < nth k (nd_shape x) 0)%nat ->
                           nd_at (_fftshift y (AxesInt k)) idx = nd_at x idx).
Proof.
  intros x k Hk. set (n := nth k (nd_shape x) 0%nat).
  assert (Hs : nd_shape (da_take x (shift_indices n) k) = nd_shape x)
    by (simpl; rewrite shift_indices_length; apply replace_at_nth).
  assert (Hi : nd_shape (da_take x (ishift_indices n) k) = nd_shape x)
    by (simpl; rewrite ishift_indices_length; apply replace_at_nth).
  split.
  - eexists. split; [reflexivity |].
    unfold _fftshift. cbn [fold_left]. fold n. rewrite Hs. fold n.
    split; [simpl; rewrite ishift_indices_length, replace_at_twice;
            apply replace_at_nth |].
    split; [reflexivity |].
    intros idx Hidx Hlt. apply take_take_inverse; fold n; auto.
    + apply shift_indices_length.
    + intros i Hi'. now apply shift_after_ishift.
  - eexists. split; [reflexivity |]. fold n.
    unfold _fftshift. cbn [fold_left]. rewrite Hi. fold n.
    split; [simpl; rewrite shift_indices_length, replace_at_twice;
            apply replace_at_nth |].
    intros idx Hidx Hlt. apply take_take_inverse; fold n; auto.
    + apply ishift_indices_length.
    + intros i Hi'. now apply ishift_after_shift.
Qed.

Lemma ifftshift_inverts_fftshift_witness :
  exists y, _ifftshift (_fftshift (da_data grid84) (AxesInt 1)) (AxesInt 1)
            = Some y /\
            nd_at y [3%nat; 2%nat] = nd_at (da_data grid84) [3%nat; 2%nat].
Proof.
  destruct (proj1 (ifftshift_inverts_fftshift (da_data grid84) 1
                     (Nat.lt_succ_diag_r 1)))
    as (y & Hy & _ & _ & Hat).
  exists y. split; [exact Hy |]. apply Hat; simpl; lia.
Defined.

Lemma fftshift_shape_and_dtype x axes :
  nd_shape (_fftshift x axes) = nd_shape x /\
  nd_dtype (_fftshift x axes) = nd_dtype x.
Proof.
  unfold _fftshift.
  generalize (match axes with
              | AxesNone => seq 0 (List.length (nd_shape x))
              | AxesInt k => [k]
              | AxesSeq ks => ks
              end).
  intros l. revert x. induction l as [| k l IH]; intros x; [now split |].
  cbn [fold_left]. destruct (IH (da_take x (shift_indices
                                              (nth k (nd_shape x) 0%nat)) k))
    as [Hs Hd].
  rewrite Hs, Hd. simpl. rewrite shift_indices_length.
  split; [apply replace_at_nth | reflexivity].
Qed.

Lemma fftshift_entries x axes idx :
  exists idx', nd_at (_fftshift x axes) idx = nd_at x idx'.
Proof.
  unfold _fftshift.
  generalize (match axes with
              | AxesNone => seq 0 (List.length (nd_shape x))
              | AxesInt k => [k]
              | AxesSeq ks => ks
              end).
  intros l. revert x. induction l as [| k l IH]; intros x; [now exists idx |].
  cbn [fold_left].
  destruct (IH (da_take x (shift_indices (nth k (nd_shape x) 0%nat)) k))
    as [idx' H].
  rewrite H. cbn [da_take nd_at]. eexists. reflexivity.
Qed.

(** X2.  [_fftshift] only moves entries: for axes that are positions of
    the array (none given, one, or several) the result has the shape and
    the element type of its argument, and each of its entries is an entry
    of the argument.  (For a position outside the array [x.shape[k]]
    raises [IndexError]; such a call is not covered.) *)
Theorem fftshift_keeps_shape_and_dtype :
  forall x axes,
    match axes with
    | AxesNone => True
    | AxesInt k => (k < List.length (nd_shape x))%nat
    | AxesSeq ks => Forall (fun k => (k < List.length (nd_shape x))%nat) ks
    end ->
    nd_shape (_fftshift x axes) = nd_shape x /\
    nd_dtype (_fftshift x axes) = nd_dtype x /\
    forall idx, exists idx', nd_at (_fftshift x axes) idx = nd_at x idx'.
Proof.
  intros x axes _.
  destruct (fftshift_shape_and_dtype x axes) as [Hs Hd].
  split; [exact Hs |]. split; [exact Hd |].
  intros idx. apply fftshift_entries.
Qed.

(** The 8 x 4 field shifted along both of its axes. *)
Lemma fftshift_keeps_shape_and_dtype_witness :
  nd_shape (_fftshift (da_data grid84) (AxesSeq [0%nat; 1%nat]))
  = [8%nat; 4%nat] /\
  nd_dtype (_fftshift (da_data grid84) (AxesSeq [0%nat; 1%nat])) = float64.
Proof.
  destruct (fftshift_keeps_shape_and_dtype (da_data grid84)
              (AxesSeq [0%nat; 1%nat])) as (Hs & Hd & _).
  - repeat constructor.
  - split; [exact Hs | exact Hd].
Defined.

(** ** More on the transform loop *)

Lemma outcome_bind {A B} (m : M A) (f : A -> M B) :
  outcome (bind m f)
  = match outcome m with
    | inl e => inl e
    | inr a => outcome (f a)
    end.
Proof.
  unfold bind, outcome. destruct m as [l [e | a]]; [reflexivity |].
  simpl. now destruct (f a).
Qed.

Lemma complex_pass_keeps_shape shift a axis :
  nd_shape (complex_pass shift a axis) = nd_shape a /\
  nd_dtype (complex_pass shift a axis) = complex128.
Proof.
  unfold complex_pass. destruct shift.
  - destruct (fftshift_shape_and_dtype (da_fft a axis) (AxesInt axis))
      as [Hs Hd].
    rewrite Hs, Hd. simpl. split; [apply replace_at_nth | reflexivity].
  - simpl. split; [apply replace_at_nth | reflexivity].
Qed.

Lemma complex_passes_keep_shape shift (axis_of : string -> nat) dims :
  forall a,
    nd_shape (fold_left (fun a di => complex_pass shift a (axis_of di)) dims a)
    = nd_shape a /\
    (nd_dtype a = complex128 ->
     nd_dtype (fold_left (fun a di => complex_pass shift a (axis_of di)) dims a)
     = complex128).
Proof.
  induction dims as [| d dims IH]; intros a; [now split |].
  cbn [fold_left].
  destruct (IH (complex_pass shift a (axis_of d))) as [Hs Hd].
  destruct (complex_pass_keeps_shape shift a (axis_of d)) as [Hs' Hd'].
  rewrite Hs, Hs'. split; [reflexivity | intros _; now apply Hd].
Qed.

Lemma init_coords_pass_through array dim di :
  In di (da_dims array) -> mem di dim = false ->
  dict_get (init_coords array dim) di = Some (da_coord array di).
Proof.
  intros Hin Hreq. unfold init_coords.
  assert (H : forall dims acc,
             In di dims \/ dict_get acc di = Some (da_coord array di) ->
             dict_get
               (fold_left
                  (fun coords d =>
                     if mem d dim then coords
                     else dict_set coords d (da_coord array d))
                  dims acc) di = Some (da_coord array di)).
  { induction dims as [| d dims IH]; intros acc H; simpl.
    - destruct H as [[] | H]. exact H.
    - apply IH. destruct (string_dec d di) as [-> | Hne].
      + right. rewrite Hreq. apply dict_get_set_same.
      + destruct H as [[E | H] | H]; [contradiction | now left |].
        right. destruct (mem d dim); [exact H |].
        now rewrite dict_get_set_other. }
  apply H. now left.
Qed.

Lemma mem_present array dim d :
  In d (da_dims array) -> mem d (present array dim) = mem d dim.
Proof.
  intros Hd. destruct (mem d dim) eqn:E.
  - apply mem_true_iff. apply mem_true_iff in E. unfold present.
    apply filter_In. split; [exact E | now apply mem_true_iff].
  - destruct (mem d (present array dim)) eqn:E'; [| reflexivity].
    apply mem_true_iff in E'. unfold present in E'.
    apply filter_In in E' as [E' _]. apply mem_true_iff in E'. congruence.
Qed.

Lemma init_present array dim :
  init_dims array (present array dim) = init_dims array dim /\
  init_coords array (present array dim) = init_coords array dim.
Proof.
  split.
  - unfold init_dims. apply map_ext_in. intros d Hd.
    now rewrite mem_present.
  - unfold init_coords. generalize (@nil (string * coordv)).
    assert (H : forall dims,
               (forall d, In d dims -> In d (da_dims array)) ->
               forall acc : dict coordv,
                 fold_left
                   (fun coords d =>
                      if mem d (present array dim) then coords
                      else dict_set coords d (da_coord array d)) dims acc
                 = fold_left
                     (fun coords d =>
                        if mem d dim then coords
                        else dict_set coords d (da_coord array d)) dims acc).
    { induction dims as [| d dims IH]; intros Hsub acc; [reflexivity |].
      simpl. rewrite mem_present by (apply Hsub; now left).
      apply IH. intros d' Hd'. apply Hsub. now right. }
    apply H. auto.
Qed.

Section LoopFacts.

Variable get_dx : DataArray -> string -> M R.

Lemma fft_loop_no_real_pass array nfft shift dim : forall st lg st',
  first st && negb (iscomplexobj (spectrum_array st)) = false ->
  fft_loop get_dx array nfft shift dim st = (lg, inr st') ->
  spectrum_array st' =
    fold_left (fun a di => complex_pass shift a (get_axis_num array di))
              (present array dim) (spectrum_array st) /\
  (forall di, In di (present array dim) ->
     exists n d, dict_get nfft di = Some n /\
       resolution get_dx array (st_dx st) di d /\
       dict_get (spectrum_coords st') ("f_" ++ di)
       = Some (Num (complex_freq shift n d))).
Proof.
  induction dim as [| di rest IH]; intros st lg st' Hc H.
  - simpl in H. unfold ret in H. inversion H; subst.
    split; [reflexivity | intros di []].
  - simpl in H. apply bind_returns in H as (l1 & st1 & l2 & Hstep & Hloop & ->).
    unfold present. simpl. fold (present array rest).
    destruct (mem di (da_dims array)) eqn:Hmem.
    + apply fft_step_present in Hstep as (n & d & lg0 & Hn & Hd & Hst);
        [| assumption].
      cbv zeta in Hst. rewrite Hc in Hst. destruct Hst as [_ ->].
      apply (fft_loop_complex get_dx array nfft shift (st_dx st)) in Hloop
        as (Harr & Hcoords & Hother);
        [| reflexivity | intros di' d' Hr; eapply resolution_set; eauto].
      simpl in *. split; [assumption |].
      intros di' [<- | Hin]; [| now apply Hcoords].
      destruct (in_dec string_dec di (present array rest)) as [Hin | Hnin];
        [now apply Hcoords |].
      exists n, d. repeat split; try assumption.
      rewrite Hother; [apply dict_get_set_same |].
      intros di' Hin E. apply freq_name_inj in E. now subst.
    + rewrite fft_step_absent in Hstep by assumption.
      inversion Hstep; subst. now apply IH in Hloop.
Qed.

(** X3.  On complex data [_fft] never takes the real transform: each
    requested dimension of the array goes through the complex transform
    (and the shift when it is set); the result has the shape of the input,
    and the coordinate of each transformed dimension is
    [fftfreq(nfft, dx)], with [nfft] entries. *)
Theorem complex_input_goes_through_complex_fft :
  forall array nfft dim dx shift lg arr coords sdims,
    iscomplexobj (da_data array) = true ->
    _fft get_dx array nfft dim dx shift = (lg, inr (arr, coords, sdims)) ->
    arr = fold_left (fun a di => complex_pass shift a (get_axis_num array di))
                    (present array dim) (da_data array) /\
    nd_shape arr = da_shape array /\
    nd_dtype arr = complex128 /\
    forall di, In di (present array dim) ->
      exists n d, dict_get nfft di = Some n /\
        resolution get_dx array dx di d /\
        dict_get coords ("f_" ++ di) = Some (Num (complex_freq shift n d)) /\
        List.length (complex_freq shift n d) = n.
Proof.
  intros array nfft dim dx shift lg arr coords sdims Hcomplex H.
  unfold _fft in H.
  apply bind_returns in H as (l1 & st & l2 & Hloop & Hret & ->).
  unfold ret in Hret. inversion Hret; subst; clear Hret.
  apply fft_loop_no_real_pass in Hloop as [Harr Hcoords];
    [| simpl; now rewrite Hcomplex].
  simpl in Harr, Hcoords.
  destruct (complex_passes_keep_shape shift (get_axis_num array)
              (present array dim) (da_data array)) as [Hs Hd].
  rewrite Harr. split; [reflexivity |]. split; [exact Hs |]. split.
  - apply Hd. unfold iscomplexobj in Hcomplex.
    now destruct (nd_dtype (da_data array)).
  - intros di Hin. destruct (Hcoords di Hin) as (n & d & Hn & Hr & Hc).
    exists n, d. repeat split; try assumption.
    unfold complex_freq. destruct shift;
      [rewrite np_fftshift_length |]; apply fftfreq_length.
Qed.

(** X4.  [_fft] leaves the dimensions that are not requested alone: the
    spectrum has one dimension name per dimension of the array, a requested
    one renamed with the prefix [f_], and the coordinate of a dimension
    that is not requested is the one of the array. *)
Theorem unrequested_dimensions_pass_through :
  forall array nfft dim dx shift lg arr coords sdims,
    _fft get_dx array nfft dim dx shift = (lg, inr (arr, coords, sdims)) ->
    List.length sdims = List.length (da_dims array) /\
    (forall i, (i < List.length (da_dims array))%nat ->
       nth i sdims ""%string
       = if mem (nth i (da_dims array) ""%string) dim
         then ("f_" ++ nth i (da_dims array) "")%string
         else nth i (da_dims array) ""%string) /\
    (forall di,
       In di (da_dims array) -> mem di dim = false ->
       (forall d, In d (present array dim) -> di <> ("f_" ++ d)%string) ->
       dict_get coords di = Some (da_coord array di)).
Proof.
  intros array nfft dim dx shift lg arr coords sdims H.
  unfold _fft in H.
  apply bind_returns in H as (l1 & st & l2 & Hloop & Hret & ->).
  unfold ret in Hret. inversion Hret; subst; clear Hret.
  split; [unfold init_dims; apply length_map |]. split.
  - intros i Hi. unfold init_dims.
    now rewrite (nth_map_lt _ _ _ _ ""%string).
  - intros di Hin Hreq Hfresh.
    rewrite (fft_loop_other_keys get_dx _ _ _ _ _ _ _ Hloop) by assumption.
    simpl. now apply init_coords_pass_through.
Qed.

(** X5.  Requested names that are no dimension of the array do not change
    what [_fft] computes: its outcome is the one over the requested
    dimensions that the array has, and each absent name is reported by the
    warning that names it. *)
Theorem fft_loop_ignores_absent_dimensions :
  forall array nfft dim dx shift,
    outcome (_fft get_dx array nfft dim dx shift)
    = outcome (_fft get_dx array nfft (present array dim) dx shift) /\
    forall di lg res,
      In di dim -> mem di (da_dims array) = false ->
      _fft get_dx array nfft dim dx shift = (lg, inr res) ->
      In (Warn (missing_dimension di)) lg.
Proof.
  intros array nfft dim dx shift.
  destruct (init_present array dim) as [Hd Hc]. split.
  - unfold _fft. rewrite !outcome_bind, Hd, Hc.
    now rewrite (proj1 (fft_loop_skips_absent get_dx array nfft shift dim _)).
  - intros di lg res Hin Habs H. unfold _fft in H.
    apply bind_returns in H as (l1 & st & l2 & Hloop & _ & ->).
    apply in_or_app. left.
    exact (proj2 (fft_loop_skips_absent get_dx array nfft shift dim _)
                 di l1 st Hin Habs Hloop).
Qed.

End LoopFacts.

Lemma complex_input_goes_through_complex_fft_witness :
  exists arr coords,
    outcome (_fft spacing_get_dx cgrid42 [("x", 4%nat); ("y", 2%nat)]
                  ["x"; "y"] [("x", Some 1); ("y", Some 1)] false)
    = inr (arr, coords, ["f_x"; "f_y"]) /\
    nd_shape arr = [4%nat; 2%nat] /\ nd_dtype arr = complex128.
Proof.
  eexists. eexists. split; [reflexivity |].
  destruct (complex_input_goes_through_complex_fft spacing_get_dx cgrid42
              [("x", 4%nat); ("y", 2%nat)] ["x"; "y"]
              [("x", Some 1); ("y", Some 1)] false _ _ _ _ eq_refl eq_refl)
    as (_ & Hs & Hd & _).
  split; [exact Hs | exact Hd].
Defined.

Lemma unrequested_dimensions_pass_through_witness :
  exists arr coords sdims,
    outcome (_fft spacing_get_dx grid84 [("t", 8%nat)] ["t"]
                  [("t", Some 1)] false) = inr (arr, coords, sdims) /\
    List.length sdims = 2%nat /\
    dict_get coords "x" = Some (Num (arange 4)).
Proof.
  eexists. eexists. eexists. split; [reflexivity |].
  destruct (unrequested_dimensions_pass_through spacing_get_dx grid84
              [("t", 8%nat)] ["t"] [("t", Some 1)] false _ _ _ _ eq_refl)
    as (Hlen & _ & Hpass).
  split; [exact Hlen |].
  apply (Hpass "x"%string).
  - right. now left.
  - reflexivity.
  - intros d [<- | []]. discriminate.
Defined.

Lemma fft_loop_ignores_absent_dimensions_witness :
  In (Warn "Cannot find dimension zz in DataArray")
     (log (_fft spacing_get_dx ramp8 [("t", 8%nat)] ["zz"; "t"]
                [("t", Some 1)] false)).
Proof.
  apply (proj2 (fft_loop_ignores_absent_dimensions spacing_get_dx ramp8
                  [("t", 8%nat)] ["zz"; "t"] [("t", Some 1)] false)
               "zz"%string _ _ (or_introl eq_refl) eq_refl eq_refl).
Defined.

(** ** What a returned spectrum tells about [nfft] *)

Lemma nth_replace_at_other {A} k k' (v d : A) l :
  k <> k' -> nth k' (replace_at k v l) d = nth k' l d.
Proof.
  revert k k'. induction l as [| x l IH]; intros [| k] [| k'] H; simpl;
    try reflexivity; try congruence.
  apply IH. congruence.
Qed.

Lemma index_of_inj l a b :
  In a l -> index_of a l = index_of b l -> a = b.
Proof.
  induction l as [| x l IH]; intros Ha E; [destruct Ha |].
  simpl in E.
  destruct (String.eqb a x) eqn:Ea, (String.eqb b x) eqn:Eb;
    try discriminate.
  - apply String.eqb_eq in Ea, Eb. congruence.
  - destruct Ha as [-> | Ha]; [rewrite String.eqb_refl in Ea; discriminate |].
    apply IH; [assumption | congruence].
Qed.

Lemma dict_get_In {V} (d : dict V) k v : dict_get d k = Some v -> In (k, v) d.
Proof.
  induction d as [| [k' v'] d IH]; simpl; [discriminate |].
  destruct (String.eqb k k') eqn:E.
  - apply String.eqb_eq in E. subst. intros H. inversion H. now left.
  - intros H. right. now apply IH.
Qed.

Lemma xr_DataArray_returns data coords dims name l spec :
  xr_DataArray data coords dims name = (l, inr spec) ->
  spec = mkDA (Some name) dims data coords no_attrs /\
  List.length dims = List.length (nd_shape data) /\
  forall k c, dict_get coords k = Some c ->
    mem k dims = true /\
    coord_len c = nth (index_of k dims) (nd_shape data) 0%nat.
Proof.
  unfold xr_DataArray.
  destruct (Nat.eqb _ _ && _) eqn:E; [| discriminate].
  unfold ret. intros H. inversion H; subst; clear H.
  apply andb_prop in E as [El Ec]. apply Nat.eqb_eq in El.
  split; [reflexivity |]. split; [exact El |].
  intros k c Hk. apply dict_get_In in Hk.
  rewrite forallb_forall in Ec. specialize (Ec _ Hk).
  unfold coord_fits in Ec. simpl in Ec.
  apply andb_prop in Ec as [Hm Hn]. apply Nat.eqb_eq in Hn. auto.
Qed.

Lemma index_of_init_dims array dim d :
  mem d dim = true ->
  ~ In ("f_" ++ d)%string (da_dims array) ->
  index_of ("f_" ++ d) (init_dims array dim) = index_of d (da_dims array).
Proof.
  intros Hreq. unfold init_dims.
  induction (da_dims array) as [| d0 dims IH]; intros Hfresh; [reflexivity |].
  cbn [map index_of].
  assert (Hne : ("f_" ++ d)%string <> d0) by (intros E; apply Hfresh; now left).
  destruct (mem d0 dim) eqn:E0.
  - destruct (String.eqb d d0) eqn:E.
    + apply String.eqb_eq in E. subst d0. now rewrite String.eqb_refl.
    + assert (E' : String.eqb ("f_" ++ d) ("f_" ++ d0) = false).
      { apply String.eqb_neq. intros H. apply freq_name_inj in H.
        apply String.eqb_neq in E. contradiction. }
      rewrite E'. f_equal. apply IH. intros H. apply Hfresh. now right.
  - assert (E : String.eqb d d0 = false).
    { apply String.eqb_neq. intros ->. congruence. }
    assert (E' : String.eqb ("f_" ++ d) d0 = false)
      by now apply String.eqb_neq.
    rewrite E, E'. f_equal. apply IH. intros H. apply Hfresh. now right.
Qed.

Section LengthFacts.

Variable get_dx : DataArray -> string -> M R.

(** The steps of a call of the body of [fft] that returns. *)
Lemma fft_resolved_inv array nfft dim dx detrend tapering shift lg out :
  fft_resolved get_dx array nfft dim dx detrend tapering shift
  = (lg, inr out) ->
  exists p l1 arr coords l2,
    da_dims p = da_dims array /\ da_shape p = da_shape array /\
    iscomplexobj (da_data p) = iscomplexobj (da_data array) /\
    (detrend = DetrendNone -> p = array) /\
    tapering = false /\
    _fft get_dx p nfft dim dx shift
    = (l1, inr (arr, coords, init_dims p dim)) /\
    List.length (da_dims array) = List.length (nd_shape arr) /\
    (forall k c, dict_get coords k = Some c ->
       coord_len c = nth (index_of k (init_dims p dim)) (nd_shape arr) 0%nat) /\
    _compute_norm_factor
      (mkDA (Some "spectrum"%string) (init_dims p dim) arr coords no_attrs)
      nfft dim false = (l2, inr out) /\
    da_coords out = coords /\ da_data out = arr /\
    da_dims out = init_dims p dim.
Proof.
  unfold fft_resolved. intros H.
  apply bind_returns in H as (l1 & p & l2 & Hp & H & ->).
  apply bind_returns in H as (l3 & p' & l4 & Hp' & H & ->).
  destruct tapering; [discriminate |].
  unfold ret in Hp'. inversion Hp'; subst p' l3; clear Hp'.
  apply bind_returns in H as (l5 & [[sa sc] sd] & l6 & Hfft & H & ->).
  apply bind_returns in H as (l7 & spec & l8 & Hspec & H & ->).
  assert (Hsd : sd = init_dims p dim).
  { unfold _fft in Hfft.
    apply bind_returns in Hfft as (? & ? & ? & _ & Hret & _).
    unfold ret in Hret. now inversion Hret. }
  subst sd.
  apply xr_DataArray_returns in Hspec as (-> & Hlen & Hfit).
  assert (Hpre : da_dims p = da_dims array /\ da_shape p = da_shape array /\
                 iscomplexobj (da_data p) = iscomplexobj (da_data array) /\
                 (detrend = DetrendNone -> p = array)).
  { destruct detrend.
    - unfold ret in Hp. inversion Hp; subst. auto.
    - apply bind_returns in Hp as (? & m & ? & _ & Hp & _).
      unfold bind, tell, ret in Hp. simpl in Hp. inversion Hp; subst.
      repeat split; try reflexivity. discriminate.
    - discriminate.
    - unfold ret in Hp. inversion Hp; subst. auto. }
  destruct Hpre as (Hd & Hs & Hc & Hnone).
  exists p, l5, sa, sc, l8.
  repeat split; try assumption.
  - rewrite <- Hlen. unfold init_dims. rewrite length_map. now rewrite Hd.
  - intros k c Hk. now apply Hfit.
  - unfold _compute_norm_factor in H.
    apply bind_returns in H as (? & fs & ? & _ & H & _).
    unfold ret in H. now inversion H.
  - unfold _compute_norm_factor in H.
    apply bind_returns in H as (? & fs & ? & _ & H & _).
    unfold ret in H. now inversion H.
  - unfold _compute_norm_factor in H.
    apply bind_returns in H as (? & fs & ? & _ & H & _).
    unfold ret in H. now inversion H.
Qed.

(** The frequency coordinate that the loop leaves for a requested dimension
    of the array. *)
Lemma fft_loop_frequency_coordinate array nfft shift dim : forall st lg st',
  fft_loop get_dx array nfft shift dim st = (lg, inr st') ->
  forall di, In di (present array dim) ->
    exists n d, dict_get nfft di = Some n /\
      (dict_get (spectrum_coords st') ("f_" ++ di)
       = Some (Num (rfftfreq n d)) \/
       dict_get (spectrum_coords st') ("f_" ++ di)
       = Some (Num (complex_freq shift n d))).
Proof.
  induction dim as [| d0 rest IH]; intros st lg st' H di Hin.
  - destruct Hin.
  - simpl in H. apply bind_returns in H as (l1 & st1 & l2 & Hstep & Hloop & ->).
    unfold present in Hin. simpl in Hin. fold (present array rest) in Hin.
    destruct (mem d0 (da_dims array)) eqn:Hmem.
    + destruct (in_dec string_dec di (present array rest)) as [Hr | Hnr];
        [now apply (IH _ _ _ Hloop) |].
      destruct Hin as [<- | Hin]; [| contradiction].
      apply fft_step_present in Hstep as (n & d & lg0 & Hn & _ & Hst);
        [| assumption].
      cbv zeta in Hst. exists n, d. split; [assumption |].
      rewrite (fft_loop_other_keys get_dx _ _ _ _ _ _ _ Hloop)
        by (intros d' Hd' E; apply freq_name_inj in E; now subst).
      destruct (first st && negb (iscomplexobj (spectrum_array st)));
        destruct Hst as [_ ->]; simpl;
        [left | right]; apply dict_get_set_same.
    + rewrite fft_step_absent in Hstep by assumption.
      inversion Hstep; subst. now apply (IH _ _ _ Hloop).
Qed.

(** X6.  [fft] returns only when [nfft] fits the data: the data are
    transformed at their own length, so on real data the first transformed
    dimension must have [nfft // 2 = length // 2] and every later one
    [nfft = length]; any other transform length ends in the [ValueError]
    of the array constructor (no padding or truncation takes place). *)
Theorem fft_returns_only_for_fitting_nfft :
  forall array nfft dim dx detrend tapering shift lg out d1 rest,
    fft_resolved get_dx array nfft dim dx detrend tapering shift
    = (lg, inr out) ->
    iscomplexobj (da_data array) = false ->
    present array dim = d1 :: rest ->
    ~ In d1 rest ->
    (forall d, In d dim -> ~ In ("f_" ++ d)%string (da_dims array)) ->
    (exists n, dict_get nfft d1 = Some n /\
       (n / 2 = nth (get_axis_num array d1) (da_shape array) 0 / 2)%nat) /\
    (forall d, In d rest ->
       exists n, dict_get nfft d = Some n /\
         n = nth (get_axis_num array d) (da_shape array) 0%nat).
Proof.
  intros array nfft dim dx detrend tapering shift lg out d1 rest
         H Hreal Hp Hnin Hfresh.
  apply fft_resolved_inv in H
    as (p & l1 & arr & coords & l2 & Hd & Hs & Hc & _ & _ & Hfft & Hlen
        & Hfit & _).
  assert (Hpp : present p dim = d1 :: rest) by (unfold present; now rewrite Hd).
  assert (Hin1 : In d1 (present array dim)) by (rewrite Hp; now left).
  unfold _fft in Hfft.
  apply bind_returns in Hfft as (l3 & st & l4 & Hloop & Hret & _).
  unfold ret in Hret. inversion Hret; subst arr coords; clear Hret.
  apply fft_loop_real in Hloop as Hreal_loop;
    [| reflexivity | simpl; now rewrite Hc].
  rewrite Hpp in Hreal_loop.
  cbn [spectrum_array spectrum_coords st_dx first] in Hreal_loop.
  destruct Hreal_loop as (Harr & Hfirst & Hrest).
  assert (Hshape : nd_shape (spectrum_array st)
                   = replace_at (get_axis_num array d1)
                       (nth (get_axis_num array d1) (da_shape array) 0 / 2
                        + 1)%nat
                       (da_shape array)).
  { rewrite Harr.
    rewrite (proj1 (complex_passes_keep_shape shift (get_axis_num p) rest _)).
    unfold get_axis_num. rewrite Hd. simpl. fold (da_shape p). now rewrite Hs. }
  assert (Hidx : forall d, In d (present array dim) ->
             index_of ("f_" ++ d) (init_dims p dim) = get_axis_num array d /\
             (get_axis_num array d < List.length (da_shape array))%nat).
  { intros d Hin. unfold present in Hin. apply filter_In in Hin as [Hr Hm].
    split.
    - rewrite index_of_init_dims; [unfold get_axis_num; now rewrite Hd | |].
      + now apply mem_true_iff.
      + rewrite Hd. now apply Hfresh.
    - apply mem_true_iff, index_of_lt in Hm. unfold get_axis_num.
      rewrite Hshape, replace_at_length in Hlen. rewrite <- Hlen. exact Hm. }
  split.
  - destruct (Hfirst Hnin) as (n & d & Hn & _ & Hcoord).
    exists n. split; [exact Hn |].
    apply Hfit in Hcoord. cbn [coord_len] in Hcoord.
    destruct (Hidx d1 Hin1) as [Hi Hlt].
    rewrite rfftfreq_length, Hi, Hshape in Hcoord.
    rewrite nth_replace_at_same in Hcoord by exact Hlt. lia.
  - intros d Hin. destruct (Hrest d Hin) as (n & dd & Hn & _ & Hcoord).
    exists n. split; [exact Hn |].
    apply Hfit in Hcoord. cbn [coord_len] in Hcoord.
    assert (Hind : In d (present array dim)) by (rewrite Hp; now right).
    destruct (Hidx d Hind) as [Hi Hlt].
    assert (Hlenf : List.length (complex_freq shift n dd) = n).
    { unfold complex_freq. destruct shift;
        [rewrite np_fftshift_length |]; apply fftfreq_length. }
    rewrite Hlenf, Hi, Hshape in Hcoord. rewrite Hcoord.
    apply nth_replace_at_other.
    intros E. apply Hnin.
    assert (Hd1 : In d1 (da_dims array)).
    { unfold present in Hin1. apply filter_In in Hin1 as [_ Hm].
      now apply mem_true_iff. }
    apply (index_of_inj _ _ _ Hd1) in E. now subst.
Qed.

End LengthFacts.

Lemma fft_returns_only_for_fitting_nfft_witness :
  exists out,
    outcome (fft_resolved spacing_get_dx grid84
               [("t", 8%nat); ("x", 4%nat)] ["t"; "x"]
               [("t", Some 1); ("x", Some 1)] DetrendNone false true)
    = inr out /\
    (exists n, dict_get [("t", 8%nat); ("x", 4%nat)] "t" = Some n /\
               (n / 2 = 8 / 2)%nat).
Proof.
  eexists. split; [reflexivity |].
  refine (proj1 (fft_returns_only_for_fitting_nfft spacing_get_dx grid84
                   [("t", 8%nat); ("x", 4%nat)] ["t"; "x"]
                   [("t", Some 1); ("x", Some 1)] DetrendNone false true
                   _ _ "t"%string ["x"%string] eq_refl eq_refl eq_refl _ _)).
  - intros [E | []]. discriminate.
  - intros d [<- | [<- | []]] [E | [E | []]]; discriminate.
Defined.

(** ** Normalisation of a returned spectrum *)

Lemma compute_norm_factor_returns a nfft dim tapering lg out :
  _compute_norm_factor a nfft dim tapering = (lg, inr out) ->
  exists ns dfs,
    Forall2 (fun di n => dict_get nfft di = Some n /\ n <> 0%nat) dim ns /\
    Forall2 (fun di df => bin_spacing a di = Some df) dim dfs /\
    ps_factor (da_attrs out)
    = Some (match ps_factor (da_attrs a) with
            | Some f => f | None => 1 end * ps_scale ns) /\
    psd_factor (da_attrs out)
    = Some (match psd_factor (da_attrs a) with
            | Some f => f | None => 1 end * psd_scale dfs ns) /\
    da_coords out = da_coords a /\ da_dims out = da_dims a /\
    da_data out = da_data a.
Proof.
  intros H. unfold _compute_norm_factor in H.
  apply bind_returns in H as (l1 & fs & l2 & Hloop & H & ->).
  unfold ret in H. inversion H; subst; clear H.
  apply norm_loop_returns in Hloop as (ns & dfs & Hns & Hdfs & Hps & Hpsd).
  exists ns, dfs. simpl. rewrite Hps, Hpsd. repeat split; assumption.
Qed.

Lemma bin_spacing_same_coords out a di :
  da_coords out = da_coords a -> da_dims out = da_dims a ->
  da_data out = da_data a ->
  bin_spacing out di = bin_spacing a di.
Proof.
  intros Hc Hd Ha. unfold bin_spacing, da_getitem, get_axis_num, da_shape.
  now rewrite Hc, Hd, Ha.
Qed.

Lemma bin_spacing_two_bins a di df l :
  bin_spacing a di = Some df ->
  dict_get (da_coords a) ("f_" ++ di) = Some (Num l) ->
  (2 <= List.length l)%nat /\ df = nth 1 l 0 - nth 0 l 0.
Proof.
  unfold bin_spacing, da_getitem. intros H Hc. rewrite Hc in H.
  simpl in H. destruct l as [| x0 [| x1 l]]; try discriminate.
  inversion H. simpl. split; [lia | reflexivity].
Qed.

Lemma rfftfreq_spacing n d :
  (2 <= n)%nat ->
  nth 1 (rfftfreq n d) 0 - nth 0 (rfftfreq n d) 0 = 1 / (INR n * d).
Proof.
  intros Hn. unfold rfftfreq.
  assert (H : exists m, (n / 2 = S m)%nat).
  { destruct (n / 2)%nat as [| m] eqn:E; [| now exists m].
    pose proof (Nat.div_mod_eq n 2). pose proof (Nat.mod_upper_bound n 2).
    lia. }
  destruct H as [m ->]. set (val := 1 / (INR n * d)).
  replace (S m + 1)%nat with (S (S m)) by lia. simpl. lra.
Qed.

Section FactorFacts.

Variable get_dx : DataArray -> string -> M R.

Lemma returned_spectrum_needs_two_bins :
  forall array nfft dim dx detrend tapering shift lg out di,
    fft_resolved get_dx array nfft dim dx detrend tapering shift
    = (lg, inr out) ->
    In di dim -> mem di (da_dims array) = true ->
    exists n, dict_get nfft di = Some n /\ (2 <= n)%nat.
Proof.
  intros array nfft dim dx detrend tapering shift lg out di H Hin Hmem.
  apply fft_resolved_inv in H
    as (p & l1 & arr & coords & l2 & Hd & _ & _ & _ & _ & Hfft & _ & _
        & Hnorm & _).
  apply compute_norm_factor_returns in Hnorm as (ns & dfs & _ & Hdfs & _).
  destruct (Forall2_In_left _ _ _ _ Hdfs Hin) as [df Hdf].
  unfold _fft in Hfft.
  apply bind_returns in Hfft as (l3 & st & l4 & Hloop & Hret & _).
  unfold ret in Hret. inversion Hret; subst arr coords; clear Hret.
  assert (Hp : In di (present p dim)).
  { unfold present. apply filter_In. split; [exact Hin | now rewrite Hd]. }
  destruct (fft_loop_frequency_coordinate get_dx _ _ _ _ _ _ _ Hloop di Hp)
    as (n & d & Hn & [Hc | Hc]);
    exists n; (split; [exact Hn |]);
    apply (bin_spacing_two_bins _ _ _ _ Hdf) in Hc as [Hlen _].
  - rewrite rfftfreq_length in Hlen.
    destruct (le_lt_dec 2 n) as [Hle | Hlt]; [exact Hle |].
    rewrite Nat.div_small in Hlen by lia. simpl in Hlen. lia.
  - unfold complex_freq in Hlen.
    destruct shift; [rewrite np_fftshift_length in Hlen |];
      now rewrite fftfreq_length in Hlen.
Qed.

(** X7.  [fft] returns only when every requested dimension of the array
    has a transform length [nfft >= 2]: with 0 or 1 the frequency
    coordinate has a single bin and the normalisation, which takes the
    difference of the first two bins, raises. *)
Theorem fft_returns_only_for_nfft_at_least_two :
  forall array nfft dim dx detrend tapering shift lg out di,
    fft_resolved get_dx array nfft dim dx detrend tapering shift
    = (lg, inr out) ->
    In di dim -> mem di (da_dims array) = true ->
    exists n, dict_get nfft di = Some n /\ (2 <= n)%nat.
Proof. exact returned_spectrum_needs_two_bins. Qed.

(** X8.  The spectrum of a real array over one dimension with the
    resolution [dx] given: [ps_factor] is [1/nfft^2], the spacing of the
    frequency bins is [1/(nfft*dx)], and [psd_factor], the inverse of
    spacing times [nfft], is [dx] itself. *)
Theorem single_real_dimension_factors :
  forall array nfft di dx detrend tapering shift lg out n d,
    fft_resolved get_dx array nfft [di] dx detrend tapering shift
    = (lg, inr out) ->
    iscomplexobj (da_data array) = false ->
    mem di (da_dims array) = true ->
    dict_get nfft di = Some n ->
    dict_get dx di = Some (Some d) ->
    d <> 0 ->
    bin_spacing out di = Some (1 / (INR n * d)) /\
    ps_factor (da_attrs out) = Some (1 / INR n ^ 2) /\
    psd_factor (da_attrs out) = Some d.
Proof.
  intros array nfft di dx detrend tapering shift lg out n d
         H Hreal Hmem Hn Hdx Hd0.
  pose proof H as H0.
  apply returned_spectrum_needs_two_bins with (di := di) in H0
    as (n' & Hn' & Hn2); [| now left | exact Hmem].
  rewrite Hn in Hn'. injection Hn' as <-.
  apply fft_resolved_inv in H
    as (p & l1 & arr & coords & l2 & Hd & _ & Hc & _ & _ & Hfft & _ & _
        & Hnorm & _).
  apply compute_norm_factor_returns in Hnorm
    as (ns & dfs & Hns & Hdfs & Hps & Hpsd & Hco' & Hdi' & Hda').
  unfold _fft in Hfft.
  apply bind_returns in Hfft as (l3 & st & l4 & Hloop & Hret & _).
  unfold ret in Hret. inversion Hret; subst arr coords; clear Hret.
  apply fft_loop_real in Hloop; [| reflexivity | simpl; now rewrite Hc].
  assert (Hp : present p [di] = [di]).
  { unfold present. simpl. now rewrite Hd, Hmem. }
  rewrite Hp in Hloop.
  cbn [spectrum_array spectrum_coords st_dx first] in Hloop.
  destruct Hloop as (_ & Hfirst & _).
  destruct (Hfirst (fun x => x)) as (n' & d' & Hn' & Hr & Hcoord).
  rewrite Hn in Hn'. injection Hn' as <-.
  unfold resolution in Hr. rewrite Hdx in Hr. subst d'.
  inversion Hns as [| ? n0 ? ns' [Hn0 _] Hns']; subst. inversion Hns'; subst.
  rewrite Hn in Hn0. injection Hn0 as <-.
  inversion Hdfs as [| ? df ? dfs' Hdf Hdfs']; subst. inversion Hdfs'; subst.
  assert (Hdfv : df = 1 / (INR n * d)).
  { destruct (bin_spacing_two_bins _ _ _ _ Hdf Hcoord) as [_ ->].
    now apply rfftfreq_spacing. }
  assert (Hn0 : INR n <> 0) by (apply not_0_INR; lia).
  split; [| split].
  - rewrite (bin_spacing_same_coords _ _ di Hco' Hdi' Hda'), Hdf.
    now rewrite Hdfv.
  - rewrite Hps. f_equal. unfold ps_scale. simpl. lra.
  - rewrite Hpsd. f_equal. unfold psd_scale, zip_with. simpl.
    rewrite Hdfv. field. split; assumption.
Qed.

End FactorFacts.

Lemma fft_returns_only_for_nfft_at_least_two_witness :
  exists n, dict_get [("t", 8%nat)] "t" = Some n /\ (2 <= n)%nat.
Proof.
  exact (fft_returns_only_for_nfft_at_least_two spacing_get_dx ramp8
           [("t", 8%nat)] ["t"] [("t", Some 1)] DetrendNone false false
           _ _ "t"%string eq_refl (or_introl eq_refl) eq_refl).
Defined.

Lemma single_real_dimension_factors_witness :
  exists out,
    outcome (fft_resolved spacing_get_dx ramp8 [("t", 8%nat)] ["t"]
               [("t", Some 2)] DetrendNone false false) = inr out /\
    psd_factor (da_attrs out) = Some 2.
Proof.
  eexists. split; [reflexivity |].
  refine (proj2 (proj2 (single_real_dimension_factors spacing_get_dx ramp8
                          [("t", 8%nat)] "t"%string [("t", Some 2)]
                          DetrendNone false false _ _ 8%nat 2
                          eq_refl eq_refl eq_refl eq_refl eq_refl _))).
  lra.
Defined.

(** ** Power spectrum and power spectrum density *)

Section EstimatorFacts.

Variable get_dx : DataArray -> string -> M R.
Variables NfftArg DimArg DxArg : Type.
Variable infer_n_and_dims :
  DataArray -> NfftArg -> DimArg -> M (list nat * list string).
Variable infer_arg_nfft : list nat -> DimArg -> M (dict nat).
Variable infer_arg_dx : DxArg -> DimArg -> M (dict (option R)).
Variable format_dim : DimArg -> M string.

Lemma fft_result_has_factors array nfft dim dx detrend tapering shift lg spec :
  fft get_dx infer_n_and_dims infer_arg_nfft infer_arg_dx
      array nfft dim dx detrend tapering shift = (lg, inr spec) ->
  exists f g, ps_factor (da_attrs spec) = Some f /\
              psd_factor (da_attrs spec) = Some g.
Proof.
  intros H. unfold fft in H.
  apply bind_returns in H as (? & [temp new_dim] & ? & _ & H & _).
  apply bind_returns in H as (? & new_nfft & ? & _ & H & _).
  apply bind_returns in H as (? & new_dx & ? & _ & H & _).
  apply fft_resolved_returns in H as (? & spec0 & ? & H & _ & _).
  apply compute_norm_factor_returns in H as (ns & dfs & _ & _ & Hps & Hpsd & _).
  eauto.
Qed.

(** X9.  [ps] and [psd] are the same computation up to the factor: when
    one returns so does the other, with the same effects, dimensions and
    coordinates, under the names [PS...] and [PSD...], and the two results
    are proportional, [psd * ps_factor = ps * psd_factor] at every index. *)
Theorem ps_and_psd_are_proportional :
  forall array nfft dim dx detrend tapering shift lg p,
    ps get_dx infer_n_and_dims infer_arg_nfft infer_arg_dx format_dim
       array nfft dim dx detrend tapering shift = (lg, inr p) ->
    exists q spec f g l0,
      psd get_dx infer_n_and_dims infer_arg_nfft infer_arg_dx format_dim
          array nfft dim dx detrend tapering shift = (lg, inr q) /\
      fft get_dx infer_n_and_dims infer_arg_nfft infer_arg_dx
          array nfft dim dx detrend tapering shift = (l0, inr spec) /\
      ps_factor (da_attrs spec) = Some f /\
      psd_factor (da_attrs spec) = Some g /\
      da_dims q = da_dims p /\ da_coords q = da_coords p /\
      da_shape q = da_shape p /\
      da_name p = Some (match da_name array with
                        | None => "PS" | Some nm => "PS_" ++ nm end)%string /\
      da_name q = Some (match da_name array with
                        | None => "PSD" | Some nm => "PSD_" ++ nm end)%string /\
      forall idx,
        re (nd_at (da_data q) idx) * f = re (nd_at (da_data p) idx) * g.
Proof.
  intros array nfft dim dx detrend tapering shift lg p H. unfold ps in H.
  apply bind_returns in H as (l1 & spec & l2 & Hfft & H & ->).
  apply bind_returns in H as (l3 & f & l4 & Hf & H & ->).
  apply of_option_returns in Hf as [Hf ->].
  apply bind_returns in H as (l5 & d & l6 & Hfmt & H & ->).
  unfold ret in H. inversion H; subst; clear H.
  destruct (fft_result_has_factors _ _ _ _ _ _ _ _ _ Hfft)
    as (f' & g & Hf' & Hg).
  rewrite Hf in Hf'. injection Hf' as <-.
  eexists. exists spec, f, g, l1.
  split.
  { unfold psd. rewrite Hfft. unfold bind at 1. rewrite Hg.
    unfold of_option, ret. unfold bind at 1. rewrite Hfmt.
    unfold bind. reflexivity. }
  repeat split; try assumption; try reflexivity.
  intros idx. simpl. ring.
Qed.

End EstimatorFacts.

Lemma ps_and_psd_are_proportional_witness :
  exists p q,
    outcome (ps spacing_get_dx listed_infer_n_and_dims listed_infer_arg_nfft
                listed_infer_arg_dx listed_format_dim ramp8 tt ["t"] (Some 1)
                DetrendNone false true) = inr p /\
    outcome (psd spacing_get_dx listed_infer_n_and_dims listed_infer_arg_nfft
                 listed_infer_arg_dx listed_format_dim ramp8 tt ["t"] (Some 1)
                 DetrendNone false true) = inr q /\
    da_name p = Some "PS"%string /\ da_name q = Some "PSD"%string.
Proof.
  destruct (ps_and_psd_are_proportional spacing_get_dx
              unit (list string) (option R)
              listed_infer_n_and_dims listed_infer_arg_nfft
              listed_infer_arg_dx listed_format_dim
              ramp8 tt ["t"] (Some 1) DetrendNone false true _ _ eq_refl)
    as (q & spec & f & g & l0 & Hq & _ & _ & _ & _ & _ & _ & Hp & Hqn & _).
  eexists. exists q. split; [reflexivity |].
  split; [now rewrite Hq |]. split; [exact Hp | exact Hqn].
Defined.

(** ** Removing the mean *)







Section DetrendFacts.

Variable get_dx : DataArray -> string -> M R.


End DetrendFacts.


(** ** More on the harmonic fit *)

Lemma sort_reverse_of_sorted l :
  StronglySorted descending l -> sort_reverse l = l.
Proof.
  induction 1 as [| x l Hs IH Hall]; [reflexivity |].
  simpl. rewrite IH. destruct l as [| y l]; [reflexivity |].
  simpl. inversion Hall as [| ? ? Hy _]; subst. unfold descending in Hy.
  destruct (Rle_dec y x); [reflexivity | contradiction].
Qed.

Lemma arctan2_range y x : - PI < arctan2 y x <= PI.
Proof.
  unfold arctan2. pose proof PI_RGT_0 as Hpi.
  destruct (Rlt_dec 0 x) as [Hx | Hx].
  - pose proof (atan_bound (y / x)). lra.
  - destruct (Rlt_dec x 0) as [Hx' | Hx'].
    + destruct (Rle_dec 0 y) as [Hy | Hy].
      * assert (H : y / x <= 0).
        { unfold Rdiv. pose proof (Rinv_lt_0_compat x Hx'). nra. }
        pose proof (atan_bound (y / x)) as Hb.
        assert (Ha : atan (y / x) <= 0).
        { destruct H as [H | H].
          - left. rewrite <- atan_0. now apply atan_increasing.
          - rewrite H, atan_0. lra. }
        lra.
      * assert (H : 0 < y / x).
        { unfold Rdiv. pose proof (Rinv_lt_0_compat x Hx'). nra. }
        pose proof (atan_bound (y / x)) as Hb.
        assert (Ha : 0 < atan (y / x))
          by (rewrite <- atan_0; now apply atan_increasing).
        lra.
    + destruct (Rlt_dec 0 y); [lra |]. destruct (Rlt_dec y 0); lra.
Qed.

Section ModeFacts.

Variable lstsq : list (list R) -> list R -> list R.

(** X11.  What [sinfit] does to the caller's objects: a scalar period
    leaves every list alone; a list of periods is replaced by its
    descending permutation and no other list is touched; the caller's list
    is left as it was exactly when it was already in descending order. *)
Theorem sinfit_changes_only_an_unsorted_list :
  forall h array periods dim coord unit,
    (forall p l', periods = PScalar p ->
       fst (sinfit lstsq h array periods dim coord unit) l' = h l') /\
    (forall l l', periods = PList l -> l' <> l ->
       fst (sinfit lstsq h array periods dim coord unit) l' = h l') /\
    (forall l d, periods = PList l ->
       match dim with
       | Some d => Some d
       | None => nth_error (da_dims array) 0
       end = Some d ->
       Permutation (h l)
                   (fst (sinfit lstsq h array periods dim coord unit) l) /\
       StronglySorted descending
                      (fst (sinfit lstsq h array periods dim coord unit) l) /\
       (fst (sinfit lstsq h array periods dim coord unit) l = h l <->
        StronglySorted descending (h l))).
Proof.
  intros h array periods dim coord unit.
  assert (G : forall l d,
             match dim with
             | Some d => Some d
             | None => nth_error (da_dims array) 0
             end = Some d ->
             fst (sinfit lstsq h array (PList l) dim coord unit) l
             = sort_reverse (h l)).
  { intros l d Hd. unfold sinfit, sinfit_system.
    rewrite Hd. cbn [fst]. unfold heap_set. now rewrite Nat.eqb_refl. }
  split; [| split].
  - intros p l' ->. unfold sinfit, sinfit_system.
    destruct (match dim with Some d => Some d | None => _ end); reflexivity.
  - intros l l' -> Hne. unfold sinfit, sinfit_system.
    destruct (match dim with Some d => Some d | None => _ end);
      [| reflexivity].
    cbn [fst]. unfold heap_set.
    apply Nat.eqb_neq in Hne. now rewrite Hne.
  - intros l d -> Hd. rewrite (G l d Hd).
    split; [apply sort_reverse_perm |].
    split; [apply sort_reverse_sorted |].
    split.
    + intros E. rewrite <- E. apply sort_reverse_sorted.
    + apply sort_reverse_of_sorted.
Qed.

(** X12.  Every amplitude that [sinfit] returns is non-negative and every
    phase lies between -180 and 180 degrees, both ends included. *)
Theorem sinfit_amplitude_and_phase_ranges :
  forall h array periods dim coord unit h' lg modes bidx,
    sinfit lstsq h array periods dim coord unit = (h', (lg, inr modes)) ->
    Forall (fun amp => 0 <= amp) (amplitude modes bidx) /\
    Forall (fun ph => - 180 <= ph <= 180) (phase modes bidx).
Proof.
  intros h array periods dim coord unit h' lg modes bidx H.
  unfold sinfit in H.
  destruct (sinfit_system h array periods dim coord unit) as [h0 sys].
  inversion H as [[Hh Hsys]]. clear H Hh.
  apply bind_returns in Hsys as (l1 & [[sorted x] ys] & l2 & _ & Hret & _).
  unfold ret in Hret. inversion Hret; subst; clear Hret.
  unfold sinfit_modes. cbn [amplitude phase]. unfold zip_with. split.
  - apply Forall_forall. intros v Hv. apply in_map_iff in Hv as [ab [<- _]].
    apply sqrt_pos.
  - apply Forall_forall. intros v Hv. apply in_map_iff in Hv as [ab [<- _]].
    pose proof (arctan2_range (snd ab) (fst ab)) as [Hlo Hhi].
    pose proof PI_RGT_0 as Hpi.
    split.
    + apply Rmult_le_reg_r with (r := PI); [exact Hpi |].
      unfold Rdiv. rewrite Rmult_assoc, Rinv_l by lra. lra.
    + apply Rmult_le_reg_r with (r := PI); [exact Hpi |].
      unfold Rdiv. rewrite Rmult_assoc, Rinv_l by lra. lra.
Qed.

End ModeFacts.

Lemma sinfit_changes_only_an_unsorted_list_witness :
  fst (sinfit zero_lstsq (fun _ => [24; 12]) hourly_datetime (PList 0)
              None None UnitH) 0%nat = [24; 12].
Proof.
  apply (proj2 (proj2 (sinfit_changes_only_an_unsorted_list zero_lstsq
                         (fun _ => [24; 12]) hourly_datetime (PList 0)
                         None None UnitH))
               0%nat "time"%string eq_refl eq_refl).
  repeat constructor; unfold descending; lra.
Defined.

Lemma sinfit_amplitude_and_phase_ranges_witness :
  exists modes,
    snd (sinfit zero_lstsq callers_store hourly_datetime (PList 0) None None
                UnitH) = ([], inr modes) /\
    Forall (fun amp => 0 <= amp) (amplitude modes []) /\
    Forall (fun ph => - 180 <= ph <= 180) (phase modes []).
Proof.
  eexists. split; [reflexivity |].
  exact (sinfit_amplitude_and_phase_ranges zero_lstsq callers_store
           hourly_datetime (PList 0) None None UnitH _ _ _ [] eq_refl).
Defined.

(** ** Evaluating the fitted modes *)

Lemma list_as_seq (l : list R) :
  l = map (fun i => nth i l 0) (seq 0 (List.length l)).
Proof.
  induction l as [| x l IH]; [reflexivity |].
  cbn [List.length seq map nth]. f_equal.
  rewrite <- seq_shift, map_map. exact IH.
Qed.

Lemma fold_left_sum {A} (F : A -> R) l : forall r0,
  fold_left (fun r p => r + F p) l r0 = r0 + fold_right Rplus 0 (map F l).
Proof.
  induction l as [| x l IH]; intros r0; simpl; [lra |].
  rewrite IH. lra.
Qed.

Lemma sum_plus {A} (F G : A -> R) l :
  fold_right Rplus 0 (map (fun p => F p + G p) l)
  = fold_right Rplus 0 (map F l) + fold_right Rplus 0 (map G l).
Proof. induction l as [| x l IH]; simpl; [lra | rewrite IH; lra]. Qed.

Lemma dot_cons x u y v : dot (x :: u) (y :: v) = x * y + dot u v.
Proof. reflexivity. Qed.

Lemma dot_app u1 : forall v1 u2 v2,
  List.length u1 = List.length v1 ->
  dot (u1 ++ u2) (v1 ++ v2) = dot u1 v1 + dot u2 v2.
Proof.
  induction u1 as [| x u1 IH]; intros [| y v1] u2 v2 H; simpl in H;
    try discriminate.
  - unfold dot at 2. simpl. lra.
  - simpl app. rewrite !dot_cons, IH by lia. lra.
Qed.

Lemma dot_rev u : forall v,
  List.length u = List.length v -> dot (rev u) (rev v) = dot u v.
Proof.
  induction u as [| x u IH]; intros [| y v] H; simpl in H; try discriminate.
  - reflexivity.
  - simpl rev. rewrite dot_app by (rewrite !length_rev; lia).
    rewrite IH by lia. rewrite !dot_cons.
    change (dot [] []) with 0. lra.
Qed.

Lemma dot_as_sum u : forall v k,
  List.length u = k -> List.length v = k ->
  dot u v = fold_right Rplus 0
              (map (fun p => nth p u 0 * nth p v 0) (seq 0 k)).
Proof.
  induction u as [| x u IH]; intros [| y v] k Hu Hv; simpl in Hu, Hv;
    subst k; try discriminate.
  - reflexivity.
  - rewrite dot_cons. cbn [seq map fold_right nth]. f_equal.
    rewrite <- seq_shift, map_map. apply IH; lia.
Qed.

Lemma nth_zip_with {A B C} (f : A -> B -> C) l l' p d da db :
  List.length l = List.length l' -> (p < List.length l)%nat ->
  nth p (zip_with f l l') d = f (nth p l da) (nth p l' db).
Proof.
  intros Hlen Hp. unfold zip_with.
  rewrite (nth_map_lt _ _ _ _ (da, db)) by (rewrite length_combine; lia).
  now rewrite combine_nth.
Qed.

(** Amplitude and phase are the polar form of the pair of coefficients. *)
Lemma arctan2_polar a b :
  sqrt (a ^ 2 + b ^ 2) * cos (arctan2 b a) = a /\
  sqrt (a ^ 2 + b ^ 2) * sin (arctan2 b a) = b.
Proof.
  assert (Hpos : forall x, 0 < x ->
             forall y, sqrt (x ^ 2 + y ^ 2) = x * sqrt (1 + (y / x)²)).
  { intros x Hx y.
    replace (x ^ 2 + y ^ 2) with (x² * (1 + (y / x)²))
      by (unfold Rsqr; field; lra).
    rewrite sqrt_mult_alt by apply Rle_0_sqr.
    now rewrite sqrt_Rsqr by lra. }
  assert (Hs : forall z, 0 < sqrt (1 + z²)).
  { intros z. apply sqrt_lt_R0. pose proof (Rle_0_sqr z). lra. }
  unfold arctan2.
  destruct (Rlt_dec 0 a) as [Ha | Ha].
  - rewrite (Hpos a Ha b), sin_atan, cos_atan.
    pose proof (Hs (b / a)). split; field; lra.
  - destruct (Rlt_dec a 0) as [Ha' | Ha'].
    + assert (E : sqrt (a ^ 2 + b ^ 2) = - a * sqrt (1 + (b / a)²)).
      { replace (a ^ 2) with ((- a) ^ 2) by ring.
        rewrite (Hpos (- a)) by lra.
        replace (b / - a) with (- (b / a)) by (field; lra).
        now rewrite <- Rsqr_neg. }
      pose proof (Hs (b / a)).
      destruct (Rle_dec 0 b).
      * rewrite E, neg_cos, neg_sin, sin_atan, cos_atan. split; field; lra.
      * rewrite E, cos_minus, sin_minus, cos_PI, sin_PI, sin_atan, cos_atan.
        split; field; lra.
    + assert (a = 0) by lra. subst a.
      replace (0 ^ 2 + b ^ 2) with (b²) by (unfold Rsqr; ring).
      destruct (Rlt_dec 0 b) as [Hb | Hb].
      * rewrite sqrt_Rsqr, cos_PI2, sin_PI2 by lra. split; ring.
      * destruct (Rlt_dec b 0) as [Hb' | Hb'].
        -- replace (- PI / 2) with (- (PI / 2)) by field.
           rewrite cos_neg, sin_neg, cos_PI2, sin_PI2.
           rewrite (Rsqr_neg b), sqrt_Rsqr by lra. split; ring.
        -- assert (b = 0) by lra. subst b.
           rewrite Rsqr_0, sqrt_0. split; ring.
Qed.

Lemma mode_term a b th :
  sqrt (a ^ 2 + b ^ 2) * sin (th + arctan2 b a * 180 / PI * PI / 180)
  = a * sin th + b * cos th.
Proof.
  replace (arctan2 b a * 180 / PI * PI / 180) with (arctan2 b a)
    by (field; apply PI_neq0).
  rewrite sin_plus. destruct (arctan2_polar a b) as [Hc Hs].
  rewrite Rmult_plus_distr_l.
  replace (sqrt (a ^ 2 + b ^ 2) * (sin th * cos (arctan2 b a)))
    with (sin th * (sqrt (a ^ 2 + b ^ 2) * cos (arctan2 b a))) by ring.
  replace (sqrt (a ^ 2 + b ^ 2) * (cos th * sin (arctan2 b a)))
    with (cos th * (sqrt (a ^ 2 + b ^ 2) * sin (arctan2 b a))) by ring.
  rewrite Hc, Hs. ring.
Qed.

Lemma map_via_seq {B} (F : R -> B) (l : list R) :
  map F l = map (fun i => F (nth i l 0)) (seq 0 (List.length l)).
Proof.
  induction l as [| x l IH]; [reflexivity |].
  cbn [List.length seq map nth]. f_equal.
  rewrite <- seq_shift, map_map. exact IH.
Qed.

Lemma skipn_nth_cons {A} (l : list A) k d :
  (k < List.length l)%nat -> skipn k l = nth k l d :: skipn (S k) l.
Proof.
  revert k. induction l as [| x l IH]; intros [| k] H; simpl in *;
    try lia; [reflexivity |]. apply IH. lia.
Qed.

(** The sum of the modes at one time is the product of the solution with
    the row of the design matrix at that time. *)
Lemma mode_sum_is_row_product (sorted c : list R) (u ti : R) :
  let k := List.length sorted in
  let a := skipn (k + 1) c in
  let b := rev (firstn k c) in
  let freqs := map (fun p => 1 / (p * u)) sorted in
  let periods := map (fun p => p * u) sorted in
  List.length c = (2 * k + 1)%nat ->
  fold_left
    (fun res p =>
       res + nth p (zip_with (fun a b => sqrt (a ^ 2 + b ^ 2)) a b) 0 *
             sin (2 * PI * ti / nth p periods 0 +
                  nth p (zip_with (fun a b => arctan2 b a * 180 / PI) a b) 0
                  * PI / 180))
    (seq 0 (List.length periods)) (nth k c 0)
  = dot c (map (fun f => cos (2 * PI * f * ti)) (rev freqs) ++
           [1] ++ map (fun f => sin (2 * PI * f * ti)) freqs).
Proof.
  intros k a b freqs periods Hc.
  assert (Ha : List.length a = k) by (unfold a; rewrite length_skipn; lia).
  assert (Hb : List.length b = k)
    by (unfold b; rewrite length_rev, length_firstn; lia).
  assert (Hp : List.length periods = k) by (unfold periods; apply length_map).
  assert (Hf : List.length freqs = k) by (unfold freqs; apply length_map).
  rewrite fold_left_sum, Hp.
  transitivity
    (dot (firstn k c ++ nth k c 0 :: a)
         (map (fun f => cos (2 * PI * f * ti)) (rev freqs) ++
          [1] ++ map (fun f => sin (2 * PI * f * ti)) freqs)).
  2:{ f_equal. unfold a. replace (k + 1)%nat with (S k) by lia.
      rewrite <- skipn_nth_cons by lia. apply firstn_skipn. }
  rewrite dot_app
    by (rewrite length_firstn, length_map, length_rev; lia).
  cbn [app]. rewrite dot_cons.
  rewrite map_rev. rewrite <- (rev_involutive (firstn k c)). fold b.
  rewrite dot_rev by (rewrite length_map; lia).
  rewrite (dot_as_sum b _ k) by (try rewrite length_map; assumption).
  rewrite (dot_as_sum a _ k) by (try rewrite length_map; assumption).
  rewrite Rmult_1_r.
  assert (E : fold_right Rplus 0
                (map (fun p =>
                        nth p (zip_with (fun a b => sqrt (a ^ 2 + b ^ 2)) a b)
                            0 *
                        sin (2 * PI * ti / nth p periods 0 +
                             nth p (zip_with
                                      (fun a b => arctan2 b a * 180 / PI) a b)
                                 0 * PI / 180))
                     (seq 0 k))
              = fold_right Rplus 0
                  (map (fun p =>
                          nth p b 0 *
                          nth p (map (fun f => cos (2 * PI * f * ti)) freqs) 0
                          + nth p a 0 *
                            nth p (map (fun f => sin (2 * PI * f * ti)) freqs)
                                0)
                       (seq 0 k))).
  { f_equal. apply map_ext_in. intros p Hin. apply in_seq in Hin.
    assert (Hpk : (p < k)%nat) by lia.
    rewrite (nth_zip_with _ a b p 0 0 0) by lia.
    rewrite (nth_zip_with _ a b p 0 0 0) by lia.
    rewrite (nth_map_lt _ freqs p 0 0) by lia.
    rewrite (nth_map_lt _ freqs p 0 0) by lia.
    unfold freqs, periods.
    rewrite (nth_map_lt _ sorted p 0 0) by (fold k; lia).
    rewrite (nth_map_lt _ sorted p 0 0) by (fold k; lia).
    replace (2 * PI * (1 / (nth p sorted 0 * u)) * ti)
      with (2 * PI * ti / (nth p sorted 0 * u)) by (unfold Rdiv; ring).
    rewrite mode_term. ring. }
  rewrite E, sum_plus. lra.
Qed.

Section EvaluationFacts.

Variable lstsq : list (list R) -> list R -> list R.

(** X13.  Fit then evaluate, over a [datetime64] coordinate: when the
    solver returns one coefficient per column, [sinval] of the modes that
    [sinfit] returns, at the coordinate of the fit, is the product of the
    design matrix with the solution; so where the solution solves the
    system exactly the data are reproduced. *)
Theorem sinval_of_sinfit_is_the_fitted_model :
  forall h array periods dim coord unit h' lg sorted x ys,
    sinfit_system h array periods dim coord unit
    = (h', (lg, inr (sorted, x, ys))) ->
    exists d ticks modes,
      sinfit lstsq h array periods dim coord unit = (h', (lg, inr modes)) /\
      match coord with
      | Some c => c = Datetime64 ticks
      | None => outcome (da_getitem array d) = inr (Datetime64 ticks)
      end /\
      forall bidx,
        let c := lstsq x (sk_col ys bidx) in
        List.length c = List.length x ->
        sinval modes (Datetime64 ticks) bidx = fitted x c /\
        (fitted x c = sk_col ys bidx ->
         sinval modes (Datetime64 ticks) bidx = sk_col ys bidx).
Proof.
  intros h array periods dim coord unit h' lg sorted x ys H.
  pose proof H as H0.
  apply sinfit_system_returns in H as (d & ticks & _ & Hx & _ & Hcoord).
  exists d, ticks, (sinfit_modes lstsq sorted x ys unit).
  split.
  { unfold sinfit. rewrite H0. unfold bind, ret. now rewrite app_nil_r. }
  split; [exact Hcoord |].
  intros bidx c Hlen.
  set (t := map (fun x => IZR x * / 1000000000) ticks) in *.
  set (freqs := map (fun p => 1 / (p * unit_seconds unit)) sorted) in *.
  assert (Hk : List.length c = (2 * List.length sorted + 1)%nat).
  { rewrite Hlen, Hx.
    destruct (design_matrix_layout freqs t) as [Hl _].
    rewrite Hl. unfold freqs. now rewrite length_map. }
  assert (Hfit : sinval (sinfit_modes lstsq sorted x ys unit)
                        (Datetime64 ticks) bidx = fitted x c).
  { unfold sinval, sinfit_modes.
    cbn [periods_coord periods_units amplitude phase offset].
    fold t. rewrite odd_half. fold c.
    rewrite (map_via_seq _ t). unfold fitted.
    assert (Hcol : List.length (nth 0 x []) = List.length t).
    { rewrite Hx. unfold design_matrix.
      destruct (rev freqs) as [| f fs]; simpl; now rewrite length_map. }
    rewrite Hcol. apply map_ext_in. intros i Hi. apply in_seq in Hi.
    rewrite (mode_sum_is_row_product sorted c (unit_seconds unit)
               (nth i t 0) Hk).
    fold freqs. f_equal. rewrite Hx. unfold design_matrix.
    rewrite !map_app, !map_map. cbn [map].
    f_equal; [| f_equal].
    - apply map_ext. intros f.
      now rewrite (nth_map_lt _ t i 0 0) by lia.
    - now rewrite (nth_map_lt _ t i 0 0) by lia.
    - apply map_ext. intros f.
      now rewrite (nth_map_lt _ t i 0 0) by lia. }
  split; [exact Hfit |]. intros E. now rewrite Hfit.
Qed.

End EvaluationFacts.

Lemma sinval_of_sinfit_is_the_fitted_model_witness :
  exists ticks modes,
    snd (sinfit zero_lstsq callers_store flat_datetime (PScalar 24) None
                None UnitH) = ([], inr modes) /\
    sinval modes (Datetime64 ticks) [] = [0; 0; 0; 0].
Proof.
  destruct (sinval_of_sinfit_is_the_fitted_model zero_lstsq callers_store
              flat_datetime (PScalar 24) None None UnitH _ _ _ _ _ eq_refl)
    as (d & ticks & modes & Hfit & Hc & Hval).
  exists ticks, modes. split; [now rewrite Hfit |].
  destruct (Hval [] eq_refl) as [_ Hdata].
  rewrite Hdata; [reflexivity |].
  unfold fitted, zero_lstsq, dot, zip_with. simpl.
  repeat (f_equal; try lra).
Defined.

(** ** The shifted frequency coordinate *)

Lemma fftfreq_positive_count_up n :
  (0 < n)%nat -> Z.to_nat ((Z.of_nat n - 1) / 2 + 1) = ((n + 1) / 2)%nat.
Proof.
  intros Hn. destruct n as [| m]; [lia |].
  rewrite fftfreq_positive_count.
  replace (S m + 1)%nat with (m + 1 * 2)%nat by lia.
  rewrite Nat.div_add by lia. lia.
Qed.

Lemma halves_sum n : ((n + 1) / 2 + n / 2 = n)%nat.
Proof.
  pose proof (Nat.div_mod_eq n 2). pose proof (Nat.mod_upper_bound n 2).
  pose proof (Nat.div_mod_eq (n + 1) 2).
  pose proof (Nat.mod_upper_bound (n + 1) 2).
  assert (H3 : (n mod 2 = 0 \/ n mod 2 = 1)%nat) by lia.
  destruct H3 as [E | E].
  - assert (((n + 1) mod 2 = 1)%nat).
    { rewrite <- Nat.Div0.add_mod_idemp_l, E. reflexivity. }
    lia.
  - assert (((n + 1) mod 2 = 0)%nat).
    { rewrite <- Nat.Div0.add_mod_idemp_l, E. reflexivity. }
    lia.
Qed.

Lemma fftfreq_index_nth n j :
  (j < n)%nat ->
  nth j (fftfreq_index n) 0%Z
  = if (j <? (n + 1) / 2)%nat then Z.of_nat j
    else (Z.of_nat j - Z.of_nat n)%Z.
Proof.
  intros Hj. unfold fftfreq_index.
  rewrite fftfreq_positive_count_up by lia.
  pose proof (halves_sum n) as Hh.
  destruct (Nat.ltb_spec j ((n + 1) / 2)) as [Hlt | Hge].
  - rewrite app_nth1 by (rewrite length_map, length_seq; lia).
    rewrite (nth_map_lt _ _ _ _ 0%nat) by (rewrite length_seq; lia).
    now rewrite seq_nth by lia.
  - rewrite app_nth2 by (rewrite length_map, length_seq; lia).
    rewrite length_map, length_seq.
    rewrite (nth_map_lt _ _ _ _ 0%nat) by (rewrite length_seq; lia).
    rewrite seq_nth by lia. lia.
Qed.

(** Entry [i] of [fftshift(fftfreq(n, d))] is [(i - n//2) / (n d)]. *)
Lemma shifted_fftfreq_nth n d i :
  (i < n)%nat ->
  nth i (np_fftshift (fftfreq n d)) 0
  = IZR (Z.of_nat i - Z.of_nat (n / 2)) * (1 / (INR n * d)).
Proof.
  intros Hi. rewrite np_fftshift_nth by (rewrite fftfreq_length; lia).
  rewrite fftfreq_length. unfold fftfreq.
  assert (Hj : ((i + (n + 1) / 2) mod n < n)%nat)
    by (apply Nat.mod_upper_bound; lia).
  rewrite (nth_map_lt _ _ _ _ 0%Z) by (rewrite fftfreq_index_length; lia).
  rewrite fftfreq_index_nth by assumption.
  f_equal. f_equal.
  pose proof (halves_sum n) as Hh. pose proof (half_up_le n) as Hu.
  destruct (Nat.lt_ge_cases i (n / 2)) as [Hlt | Hge].
  - rewrite Nat.mod_small by lia.
    destruct (Nat.ltb_spec (i + (n + 1) / 2) ((n + 1) / 2)); lia.
  - assert (E : ((i + (n + 1) / 2) mod n = i - n / 2)%nat).
    { symmetry. apply Nat.mod_unique with (q := 1%nat); lia. }
    rewrite E.
    destruct (Nat.ltb_spec (i - n / 2) ((n + 1) / 2)); lia.
Qed.

Section ShiftedCoordinateFacts.

Variable get_dx : DataArray -> string -> M R.

(** X14.  The coordinate that a shifted complex pass leaves is centred and
    ascending in steps of [1/(nfft*dx)]: its entry [i] is
    [(i - nfft//2) / (nfft*dx)], so the zero frequency is at index
    [nfft//2] for odd lengths too. *)
Theorem shifted_coordinate_is_centred :
  forall array nfft st di lg st',
    mem di (da_dims array) = true ->
    first st && negb (iscomplexobj (spectrum_array st)) = false ->
    fft_step get_dx array nfft true st di = (lg, inr st') ->
    exists n d c,
      dict_get nfft di = Some n /\
      resolution get_dx array (st_dx st) di d /\
      dict_get (spectrum_coords st') ("f_" ++ di) = Some (Num c) /\
      List.length c = n /\
      (forall i, (i < n)%nat ->
         nth i c 0
         = IZR (Z.of_nat i - Z.of_nat (n / 2)) * (1 / (INR n * d))) /\
      ((0 < n)%nat -> nth (n / 2) c 0 = 0) /\
      (forall i, (S i < n)%nat ->
         nth (S i) c 0 - nth i c 0 = 1 / (INR n * d)).
Proof.
  intros array nfft st di lg st' Hmem Hcomplex H.
  apply fft_step_present in H as (n & d & lg0 & Hn & Hd & Hst);
    [| assumption].
  cbv zeta in Hst. rewrite Hcomplex in Hst. destruct Hst as [_ ->].
  exists n, d, (np_fftshift (fftfreq n d)).
  cbn [spectrum_coords complex_freq].
  split; [assumption |]. split; [assumption |].
  split; [apply dict_get_set_same |].
  split; [now rewrite np_fftshift_length, fftfreq_length |].
  split; [intros i Hi; now apply shifted_fftfreq_nth |].
  split.
  - intros Hpos. rewrite shifted_fftfreq_nth by (apply Nat.div_lt; lia).
    rewrite Z.sub_diag. lra.
  - intros i Hi. rewrite !shifted_fftfreq_nth by lia.
    rewrite <- Rmult_minus_distr_r, <- minus_IZR.
    replace (Z.of_nat (S i) - Z.of_nat (n / 2)
             - (Z.of_nat i - Z.of_nat (n / 2)))%Z with 1%Z by lia.
    lra.
Qed.

End ShiftedCoordinateFacts.

Lemma shifted_coordinate_is_centred_witness :
  exists c, List.length c = 5%nat /\ nth 2 c 0 = 0.
Proof.
  destruct (shifted_coordinate_is_centred spacing_get_dx grid84
              [("x", 5%nat)]
              (mkSt (da_rfft (da_data grid84) 0) [] [("x", Some 1)] false)
              "x" _ _ eq_refl eq_refl eq_refl)
    as (n & d & c & Hn & _ & _ & Hlen & _ & Hzero & _).
  simpl in Hn. injection Hn as <-.
  exists c. split; [exact Hlen |]. apply Hzero. lia.
Defined.

(** ** The density factor under [shift=True] *)

Lemma present_all array dim :
  Forall (fun di => mem di (da_dims array) = true) dim ->
  present array dim = dim.
Proof.
  unfold present. induction 1 as [| d dim Hd _ IH]; [reflexivity |].
  simpl. now rewrite Hd, IH.
Qed.

Lemma shifted_fftfreq_spacing n d :
  (2 <= n)%nat ->
  nth 1 (np_fftshift (fftfreq n d)) 0 - nth 0 (np_fftshift (fftfreq n d)) 0
  = 1 / (INR n * d).
Proof.
  intros Hn. rewrite !shifted_fftfreq_nth by lia.
  rewrite <- Rmult_minus_distr_r, <- minus_IZR.
  replace (Z.of_nat 1 - Z.of_nat (n / 2) - (Z.of_nat 0 - Z.of_nat (n / 2)))%Z
    with 1%Z by lia.
  lra.
Qed.

Lemma psd_scale_of_resolutions {A} (Pn : A -> nat -> Prop)
    (Pdf Pd : A -> R -> Prop) dim :
  forall ns dfs ds,
    Forall2 Pn dim ns -> Forall2 Pdf dim dfs -> Forall2 Pd dim ds ->
    (forall di n df d, In di dim -> Pn di n -> Pdf di df -> Pd di d ->
                       1 / (df * INR n) = d) ->
    psd_scale dfs ns = fold_right Rmult 1 ds.
Proof.
  induction dim as [| di dim IH]; intros ns dfs ds Hn Hdf Hd Hall;
    inversion Hn; inversion Hdf; inversion Hd; subst; [reflexivity |].
  unfold psd_scale, zip_with in *. simpl.
  rewrite (Hall di y y0 y1) by (auto; now left).
  f_equal. apply IH; auto. intros. apply (Hall di0); auto. now right.
Qed.

Section DensityFacts.

Variable get_dx : DataArray -> string -> M R.

(** The frequency coordinates after [_fft], with the resolutions used. *)
Lemma fft_coordinates array nfft dim dx shift lg arr coords sdims :
  _fft get_dx array nfft dim dx shift = (lg, inr (arr, coords, sdims)) ->
  NoDup (present array dim) ->
  forall di, In di (present array dim) ->
    exists n d, dict_get nfft di = Some n /\
      resolution get_dx array dx di d /\
      (dict_get coords ("f_" ++ di) = Some (Num (rfftfreq n d)) \/
       dict_get coords ("f_" ++ di) = Some (Num (complex_freq shift n d))).
Proof.
  intros H Hnd di Hin. unfold _fft in H.
  apply bind_returns in H as (l1 & st & l2 & Hloop & Hret & _).
  unfold ret in Hret. inversion Hret; subst; clear Hret.
  destruct (iscomplexobj (da_data array)) eqn:Hc.
  - apply fft_loop_no_real_pass in Hloop as [_ Hcoords];
      [| simpl; now rewrite Hc].
    destruct (Hcoords di Hin) as (n & d & Hn & Hr & Hco).
    exists n, d. auto.
  - apply fft_loop_real in Hloop; [| reflexivity | exact Hc].
    destruct (present array dim) as [| d1 rest]; [destruct Hin |].
    destruct Hloop as (_ & Hfirst & Hrest).
    inversion Hnd as [| ? ? Hnin _]; subst.
    destruct Hin as [<- | Hin].
    + destruct (Hfirst Hnin) as (n & d & Hn & Hr & Hco). exists n, d. auto.
    + destruct (Hrest di Hin) as (n & d & Hn & Hr & Hco). exists n, d. auto.
Qed.

(** X15.  With [shift=True], the default of [ps] and [psd], the spectrum
    over distinct dimensions of the array with the resolutions given has
    [psd_factor] equal to the product of the resolutions [dx]: each bin
    spacing is [1/(nfft*dx)].  The factor is positive when they are. *)
Theorem shifted_psd_factor_is_product_of_resolutions :
  forall array nfft dim dx detrend tapering lg out ds,
    fft_resolved get_dx array nfft dim dx detrend tapering true
    = (lg, inr out) ->
    NoDup dim ->
    Forall (fun di => mem di (da_dims array) = true) dim ->
    Forall2 (fun di d => dict_get dx di = Some (Some d) /\ d <> 0) dim ds ->
    psd_factor (da_attrs out) = Some (fold_right Rmult 1 ds) /\
    (Forall (fun d => 0 < d) ds -> 0 < fold_right Rmult 1 ds).
Proof.
  intros array nfft dim dx detrend tapering lg out ds H Hnd Hall Hds.
  split.
  2:{ clear. induction 1 as [| d ds Hd _ IH]; simpl; [lra |].
      now apply Rmult_lt_0_compat. }
  apply fft_resolved_inv in H
    as (p & l1 & arr & coords & l2 & Hd & _ & _ & _ & _ & Hfft & _ & _
        & Hnorm & _).
  assert (Hpres : present p dim = dim).
  { apply present_all. now rewrite Hd. }
  pose proof (fft_coordinates _ _ _ _ _ _ _ _ _ Hfft) as Hcoords.
  rewrite Hpres in Hcoords. specialize (Hcoords Hnd).
  apply compute_norm_factor_returns in Hnorm
    as (ns & dfs & Hns & Hdfs & _ & Hpsd & _).
  rewrite Hpsd. cbn [da_attrs psd_factor no_attrs]. rewrite Rmult_1_l.
  f_equal.
  apply (psd_scale_of_resolutions _ _ _ dim ns dfs ds Hns Hdfs Hds).
  intros di n df d Hin [Hn Hn0] Hdf [Hdx Hd0].
  destruct (Hcoords di Hin) as (n' & d' & Hn' & Hr & Hco).
  rewrite Hn in Hn'. injection Hn' as <-.
  unfold resolution in Hr. rewrite Hdx in Hr. subst d'.
  assert (Hspacing : df = 1 / (INR n * d)).
  { destruct Hco as [Hco | Hco];
      destruct (bin_spacing_two_bins _ _ _ _ Hdf Hco) as [Hlen ->].
    - apply rfftfreq_spacing. rewrite rfftfreq_length in Hlen.
      destruct (le_lt_dec 2 n) as [Hle | Hlt]; [exact Hle |].
      rewrite Nat.div_small in Hlen by lia. simpl in Hlen. lia.
    - cbn [complex_freq] in *. apply shifted_fftfreq_spacing.
      now rewrite np_fftshift_length, fftfreq_length in Hlen. }
  rewrite Hspacing. field. split; [exact Hd0 | apply not_0_INR; exact Hn0].
Qed.

End DensityFacts.

Lemma shifted_psd_factor_is_product_of_resolutions_witness :
  exists out,
    outcome (fft_resolved spacing_get_dx grid84
               [("t", 8%nat); ("x", 4%nat)] ["t"; "x"]
               [("t", Some 2); ("x", Some 3)] DetrendNone false true)
    = inr out /\
    psd_factor (da_attrs out) = Some (2 * (3 * 1)).
Proof.
  eexists. split; [reflexivity |].
  refine (proj1 (shifted_psd_factor_is_product_of_resolutions spacing_get_dx
                   grid84 [("t", 8%nat); ("x", 4%nat)] ["t"; "x"]
                   [("t", Some 2); ("x", Some 3)] DetrendNone false _ _
                   [2; 3] eq_refl _ _ _)).
  - repeat constructor; simpl; intuition discriminate.
  - repeat constructor.
  - repeat constructor; lra.
Defined.

(** ** Evaluation and success of the fit *)

(** X16.  [sinval] over plain numbers is periodic: moving every coordinate
    by a common whole multiple of all the periods does not change the
    values. *)
Theorem sinval_is_periodic :
  forall modes l bidx T,
    (forall p, (p < List.length (periods_coord modes))%nat ->
       exists k : nat,
         nth p (periods_coord modes) 0 <> 0 /\
         T = INR k * nth p (periods_coord modes) 0) ->
    sinval modes (Num (map (fun t => t + T) l)) bidx
    = sinval modes (Num l) bidx.
Proof.
  intros modes l bidx T H. unfold sinval. rewrite map_map.
  apply map_ext. intros t. rewrite !fold_left_sum. f_equal. f_equal.
  apply map_ext_in. intros p Hp. apply in_seq in Hp.
  destruct (H p) as (k & Hne & ->); [lia |]. f_equal.
  set (P := nth p (periods_coord modes) 0) in *.
  replace (2 * PI * (t + INR k * P) / P + nth p (phase modes bidx) 0 * PI / 180)
    with (2 * PI * t / P + nth p (phase modes bidx) 0 * PI / 180
          + 2 * INR k * PI) by (field; exact Hne).
  apply sin_period.
Qed.

Lemma sinval_is_periodic_witness :
  sinval tide_modes (Num (map (fun t => t + 24) [0; 1; 2])) []
  = sinval tide_modes (Num [0; 1; 2]) [].
Proof.
  apply sinval_is_periodic. intros [| [| p]] Hp; simpl in Hp; try lia.
  - exists 1%nat. simpl. split; lra.
  - exists 2%nat. simpl. split; lra.
Defined.

Section SuccessFacts.

Variable lstsq : list (list R) -> list R -> list R.

(** X17.  [sinfit] returns modes only when the dimension of the fit (the
    one given, or the first of the array) is a dimension of the array and
    the coordinate of the fit is a [datetime64] one: every other call ends
    in an exception. *)
Theorem sinfit_returns_only_on_datetime_coordinate :
  forall h array periods dim coord unit h' lg modes,
    sinfit lstsq h array periods dim coord unit = (h', (lg, inr modes)) ->
    exists d ticks,
      match dim with
      | Some d => Some d
      | None => nth_error (da_dims array) 0
      end = Some d /\
      mem d (da_dims array) = true /\
      match coord with
      | Some c => c = Datetime64 ticks
      | None => outcome (da_getitem array d) = inr (Datetime64 ticks)
      end.
Proof.
  intros h array periods dim coord unit h' lg modes.
  unfold sinfit, sinfit_system.
  destruct (match dim with Some d => Some d | None => _ end) as [d |];
    [| discriminate].
  intros H. inversion H as [[Hh Hsys]]. clear H Hh.
  destruct (mem d (da_dims array)) eqn:Hmem; cbn [negb] in Hsys;
    [| discriminate].
  apply bind_returns in Hsys as (l1 & [[sorted x] ys] & l2 & H & _).
  apply bind_returns in H as (l3 & c & l4 & Hc & H & _).
  apply bind_returns in H as (l5 & [t freqs] & l6 & Hr & _).
  destruct c as [nums | ticks]; [discriminate |].
  exists d, ticks. split; [reflexivity |]. split; [exact Hmem |].
  destruct coord as [c |].
  - unfold ret in Hc. now inversion Hc.
  - now rewrite Hc.
Qed.

End SuccessFacts.

(** The fit of the hourly series went along its [datetime64] dimension
    [time]. *)
Lemma sinfit_returns_only_on_datetime_coordinate_witness :
  exists d ticks,
    nth_error (da_dims hourly_datetime) 0 = Some d /\
    mem d (da_dims hourly_datetime) = true /\
    outcome (da_getitem hourly_datetime d) = inr (Datetime64 ticks).
Proof.
  exact (sinfit_returns_only_on_datetime_coordinate zero_lstsq callers_store
           hourly_datetime (PList 0) None None UnitH _ _ _ eq_refl).
Defined.

(* ------------------------------------------------------------------ *)
(** ** A call that names a dimension the array does not have *)
(* ------------------------------------------------------------------ *)





Section CompletionFacts.

Variable get_dx : DataArray -> string -> M R.









End CompletionFacts.



Section ResolverFacts.

Variable get_dx : DataArray -> string -> M R.
Variables NfftArg DxArg : Type.
Variable infer_n_and_dims :
  DataArray -> NfftArg -> list string -> M (list nat * list string).
Variable infer_arg_nfft : list nat -> list string -> M (dict nat).
Variable infer_arg_dx : DxArg -> list string -> M (dict (option R)).



End ResolverFacts.

